(** * The pair/list engine of the Scheme runtime (package [scheme])

    A shallow embedding of [list.go] (pairs, [Map], [Car], [Cdr] and the list
    builtins), of the [Identifier] methods and [ToString]/[ToScheme] of
    [value.go], and of the later revision of [list.go] that adds [Eq] and
    [MapPairs].

    Go pairs and identifiers are heap objects reached through pointers: two
    variables may alias one cell, [SetCar]/[SetCdr] mutate it in place, and
    [Eq] compares addresses.  The embedding therefore keeps an explicit store
    (a finite map from addresses to objects); a [Value] that is a pointer
    carries its dynamic type and its address, exactly as a Go interface value
    does. *)

From stdpp Require Import base gmap strings list pretty.
From Stdlib Require Import ZArith Lia.

Open Scope string_scope.
Open Scope Z_scope.

(** ** Declarations of the package that are not part of the sources at hand

    [Number] (with [Int64], [Scheme] and [String]), the renderings of
    [Boolean] and [String] values and [Point] (with [Undefined] and [String])
    are declared in other files of the package.  They are parameters of the
    development: every result below holds for all of them. *)
Class Externals := {
  Number : Type;
  Number_Int64 : Number → Z;
  Number_Scheme : Number → string;
  Number_String : Number → string;
  Number_Equal : Number → Number → bool;
  Boolean_Scheme : bool → string;
  Boolean_String : bool → string;
  String_Scheme : string → string;
  String_String : string → string;
  Point : Type;
  Point_Undefined : Point → bool;
  Point_String : Point → string;
  (** [Point{}], the zero value of the struct. *)
  Point_zero : Point
}.

(** [NewNumber(base, value)] on an [int] value, of the same other files. *)
Class NumberConstructor `{Externals} := {
  NewNumber : Z → Z → Number
}.

(** ** Outcomes of a Go computation

    [Done a] is a normal return.  [Panic] is a Go run-time panic (an index out
    of range, or the dereference of a pointer that addresses no object of the
    right type; Go's memory safety rules the latter out).  [OutOfFuel] means
    the bounded unfolding of a loop or recursion was too short: the truth about
    a run that returns is stated with [Done], for enough fuel. *)
Inductive Outcome (A : Type) : Type :=
| Done (a : A)
| Panic
| OutOfFuel.
Arguments Done {A} a.
Arguments Panic {A}.
Arguments OutOfFuel {A}.

Global Instance Outcome_bind : MBind Outcome := λ A B k m,
  match m with
  | Done a => k a
  | Panic => Panic
  | OutOfFuel => OutOfFuel
  end.

(** ** Errors

    A Go [error] is observed through its identity (the package variable
    [ErrorInvalidList], made by [errors.New]) and through its text.  Every
    other error value is represented by its text. *)
Inductive error : Type :=
| ErrorInvalidList
| Errorf (msg : string).

Definition Error (e : error) : string :=
  match e with
  | ErrorInvalidList => "invalid list"
  | Errorf msg => msg
  end.

Global Instance error_eq_dec : EqDecision error.
Proof. solve_decision. Defined.

Section Model.
Context `{Ext : Externals}.

(** ** Values and the store *)

Definition loc := positive.

(** A [Value] interface value: [Nil] is the nil interface (the empty list);
    a pointer value records its dynamic type and its address. *)
Inductive Value : Type :=
| Nil
| VBoolean (b : bool)
| VNumber (n : Number)
| VString (s : string)
| VIdentifier (l : loc)
| VPlainPair (l : loc)
| VLocationPair (l : loc).

Definition Flags := Z.

Record Identifier := mkIdentifier {
  Name : string;
  IdPoint : Point;
  Global : Value;
  IdFlags : Flags
}.

Record PlainPair := mkPlainPair {
  car : Value;
  cdr : Value
}.

(** [LocationPair] embeds a [PlainPair].  The later revision has the fields
    [from] and [to]; the first revision has the single embedded [Point], which
    is [from] here. *)
Record LocationPair := mkLocationPair {
  from : Point;
  to : Point;
  plain : PlainPair
}.

Inductive Object : Type :=
| OIdentifier (i : Identifier)
| OPlainPair (p : PlainPair)
| OLocationPair (p : LocationPair).

(** The store: the objects that pointers address. *)
Abbreviation Heap := (gmap loc Object).

(** The type assertion [v.(Pair)]. *)
Definition isPair (v : Value) : bool :=
  match v with
  | VPlainPair _ | VLocationPair _ => true
  | _ => false
  end.

Definition isNil (v : Value) : bool :=
  match v with
  | Nil => true
  | _ => false
  end.

(** Reading the [PlainPair] fields behind a [Pair]. *)
Definition load (h : Heap) (v : Value) : Outcome PlainPair :=
  match v with
  | VPlainPair l =>
      match h !! l with
      | Some (OPlainPair p) => Done p
      | _ => Panic
      end
  | VLocationPair l =>
      match h !! l with
      | Some (OLocationPair p) => Done (plain p)
      | _ => Panic
      end
  | _ => Panic
  end.

(** Writing the [PlainPair] fields behind a [Pair], in place. *)
Definition store (h : Heap) (v : Value) (f : PlainPair → PlainPair) : Outcome Heap :=
  match v with
  | VPlainPair l =>
      match h !! l with
      | Some (OPlainPair p) => Done (<[l := OPlainPair (f p)]> h)
      | _ => Panic
      end
  | VLocationPair l =>
      match h !! l with
      | Some (OLocationPair p) =>
          Done (<[l := OLocationPair (mkLocationPair (from p) (to p) (f (plain p)))]> h)
      | _ => Panic
      end
  | _ => Panic
  end.

Definition loadIdentifier (h : Heap) (l : loc) : Outcome Identifier :=
  match h !! l with
  | Some (OIdentifier i) => Done i
  | _ => Panic
  end.

(** Allocation: Go hands out an address that no live object has. *)
Definition alloc (h : Heap) (o : Object) : Heap * loc :=
  let l := fresh (dom h) in (<[l := o]> h, l).

(** [NewPair] *)
Definition NewPair (h : Heap) (car cdr : Value) : Heap * Value :=
  let '(h', l) := alloc h (OPlainPair (mkPlainPair car cdr)) in (h', VPlainPair l).

(** [NewLocationPair] (later revision) *)
Definition NewLocationPair (h : Heap) (from to : Point) (car cdr : Value) : Heap * Value :=
  let '(h', l) := alloc h (OLocationPair (mkLocationPair from to (mkPlainPair car cdr))) in
  (h', VLocationPair l).

(** Methods [Car], [Cdr], [SetCar], [SetCdr] of both pair types. *)
Definition Pair_Car (h : Heap) (pair : Value) : Outcome Value :=
  p ← load h pair ; Done (car p).

Definition Pair_Cdr (h : Heap) (pair : Value) : Outcome Value :=
  p ← load h pair ; Done (cdr p).

Definition SetCar (h : Heap) (pair v : Value) : Outcome (Heap * option error) :=
  h' ← store h pair (fun p => mkPlainPair v (cdr p)) ; Done (h', None).

Definition SetCdr (h : Heap) (pair v : Value) : Outcome (Heap * option error) :=
  h' ← store h pair (fun p => mkPlainPair (car p) v) ; Done (h', None).

(** [Location] (first revision) and [From] (later revision): [Point{}] for a
    [PlainPair], the recorded start for a [LocationPair]. *)
Definition Pair_From (h : Heap) (pair : Value) : Outcome Point :=
  match pair with
  | VPlainPair _ => Done Point_zero
  | VLocationPair l =>
      match h !! l with
      | Some (OLocationPair p) => Done (from p)
      | _ => Panic
      end
  | _ => Panic
  end.

Definition Pair_Location := Pair_From.

(** [To] (later revision) *)
Definition Pair_To (h : Heap) (pair : Value) : Outcome Point :=
  match pair with
  | VPlainPair _ => Done Point_zero
  | VLocationPair l =>
      match h !! l with
      | Some (OLocationPair p) => Done (to p)
      | _ => Panic
      end
  | _ => Panic
  end.

(** [SetTo] (later revision): nothing on a [PlainPair], the end location of a
    [LocationPair]. *)
Definition Pair_SetTo (h : Heap) (pair : Value) (p : Point) : Outcome Heap :=
  match pair with
  | VPlainPair _ => Done h
  | VLocationPair l =>
      match h !! l with
      | Some (OLocationPair lp) =>
          Done (<[l := OLocationPair (mkLocationPair (from lp) p (plain lp))]> h)
      | _ => Panic
      end
  | _ => Panic
  end.

(** The package functions [Car] and [Cdr]. *)
Definition Car (h : Heap) (pair : Value) (ok : bool) : Outcome (Value * bool) :=
  if negb ok then Done (pair, false)
  else if negb (isPair pair) then Done (pair, false)
  else v ← Pair_Car h pair ; Done (v, true).

Definition Cdr (h : Heap) (pair : Value) (ok : bool) : Outcome (Value * bool) :=
  if negb ok then Done (pair, false)
  else if negb (isPair pair) then Done (pair, false)
  else v ← Pair_Cdr h pair ; Done (v, true).

(** ** Rendering

    [Scheme()] and the [%v] verb of [fmt] dispatch on the dynamic type; the
    rendering of a pair is passed in, so that the loop of [PlainPair.String]
    below can close the recursion. *)

(** [Identifier.String]: the name. *)
Definition Identifier_String (h : Heap) (v : loc) : Outcome string :=
  i ← loadIdentifier h v ; Done (Name i).

(** The method call [v.Scheme()].  On the nil interface it panics. *)
Definition Scheme_with (pairString : Value → Outcome string)
    (h : Heap) (v : Value) : Outcome string :=
  match v with
  | Nil => Panic
  | VBoolean b => Done (Boolean_Scheme b)
  | VNumber n => Done (Number_Scheme n)
  | VString s => Done (String_Scheme s)
  | VIdentifier l => Identifier_String h l
  | VPlainPair _ | VLocationPair _ => pairString v
  end.

(** [fmt.Sprintf] with the verb [%v]: [<nil>] for the nil interface, the [String()]
    method otherwise. *)
Definition Sprintf_v_with (pairString : Value → Outcome string)
    (h : Heap) (v : Value) : Outcome string :=
  match v with
  | Nil => Done "<nil>"
  | VBoolean b => Done (Boolean_String b)
  | VNumber n => Done (Number_String n)
  | VString s => Done (String_String s)
  | VIdentifier l => Identifier_String h l
  | VPlainPair _ | VLocationPair _ => pairString v
  end.

(** The loop of [PlainPair.String], from the pair [i] on: everything that is
    written between the opening and the closing parenthesis. *)
Fixpoint String_loop (fuel : nat) (h : Heap) (i : Value) (first : bool)
    : Outcome string :=
  match fuel with
  | O => OutOfFuel
  | S fuel =>
      p ← load h i ;
      let sep := if first then "" else " " in
      elem ← (if isNil (car p) then Done "nil"
               else Scheme_with
                      (λ q, s ← String_loop fuel h q true ; Done ("(" +:+ s +:+ ")"))
                      h (car p)) ;
      if isPair (cdr p) then
        rest ← String_loop fuel h (cdr p) false ; Done (sep +:+ elem +:+ rest)
      else if isNil (cdr p) then Done (sep +:+ elem)
      else
        tail ← Sprintf_v_with
                  (λ q, s ← String_loop fuel h q true ; Done ("(" +:+ s +:+ ")"))
                  h (cdr p) ;
        Done (sep +:+ elem +:+ " . " +:+ tail)
  end.

(** [PlainPair.String] (and [LocationPair.String], which calls it). *)
Definition PlainPair_String (fuel : nat) (h : Heap) (pair : Value) : Outcome string :=
  s ← String_loop fuel h pair true ; Done ("(" +:+ s +:+ ")").

Definition Scheme (fuel : nat) (h : Heap) (v : Value) : Outcome string :=
  Scheme_with (PlainPair_String fuel h) h v.

Definition Sprintf_v (fuel : nat) (h : Heap) (v : Value) : Outcome string :=
  Sprintf_v_with (PlainPair_String fuel h) h v.

(** [ToString] *)
Definition ToString (fuel : nat) (h : Heap) (v : Value) : Outcome string :=
  if isNil v then Done "'()" else Sprintf_v fuel h v.

(** [ToScheme] *)
Definition ToScheme (fuel : nat) (h : Heap) (v : Value) : Outcome string :=
  if isNil v then Done "'()" else Scheme fuel h v.

(** ** Symbol flags *)

Definition FlagDefined : Flags := Z.shiftl 1 0.
Definition FlagConst : Flags := Z.shiftl 1 1.

(** The white space of [strings.TrimSpace] that an ASCII text can hold. *)
Definition isSpace (c : Ascii.ascii) : bool :=
  let n := Ascii.nat_of_ascii c in
  (Nat.eqb n 32 || (Nat.leb 9 n && Nat.leb n 13))%nat.

Fixpoint TrimLeft (s : string) : string :=
  match s with
  | EmptyString => EmptyString
  | String c s' => if isSpace c then TrimLeft s' else s
  end.

(** The text without its trailing white space. *)
Fixpoint TrimRight (s : string) : string :=
  match s with
  | EmptyString => EmptyString
  | String c s' =>
      match TrimRight s' with
      | EmptyString => if isSpace c then EmptyString else String c EmptyString
      | t => String c t
      end
  end.

(** [strings.TrimSpace] *)
Definition TrimSpace (s : string) : string := TrimRight (TrimLeft s).

(** [Flags.String] *)
Definition Flags_String (f : Flags) : string :=
  let result := "" in
  let result := if negb (Z.land f FlagDefined =? 0) then result +:+ " defined" else result in
  let result := if negb (Z.land f FlagConst =? 0) then result +:+ " const" else result in
  TrimSpace result.

(** ** Identity and structural equality *)

(** [PlainPair.Eq] (later revision): [o] is a [*PlainPair] and the two
    pointers are the same. *)
Definition PlainPair_Eq (pair : loc) (o : Value) : bool :=
  match o with
  | VPlainPair ov => bool_decide (pair = ov)
  | _ => false
  end.

(** [LocationPair.Eq] (later revision) *)
Definition LocationPair_Eq (pair : loc) (o : Value) : bool :=
  match o with
  | VLocationPair ov => bool_decide (pair = ov)
  | _ => false
  end.

(** [Identifier.Equal]: [o] is a [*Identifier] with the same name. *)
Definition Identifier_Equal (h : Heap) (v : loc) (o : Value) : Outcome bool :=
  match o with
  | VIdentifier ov =>
      i ← loadIdentifier h v ;
      j ← loadIdentifier h ov ;
      Done (bool_decide (Name i = Name j))
  | _ => Done false
  end.

(** [Identifier.Eq] returns [v.Equal(o)]. *)
Definition Identifier_Eq (h : Heap) (v : loc) (o : Value) : Outcome bool :=
  Identifier_Equal h v o.

(** [PlainPair.Equal], over the package function [Equal] that it calls. *)
Definition PlainPair_Equal (Equal : Value → Value → Outcome bool)
    (h : Heap) (pair o : Value) : Outcome bool :=
  if isPair o then
    p ← load h pair ;
    ov ← load h o ;
    Equal (car p) (car ov) ≫= λ r : bool,
    if r then Equal (cdr p) (cdr ov) else Done false
  else Done false.

(** Modelled from the spec: the [Equal] methods of [Boolean], [Number] and
    [String] are declared in files that are not at hand.  The spec has
    "Equality (Equal) between two Values of different concrete kinds is always
    false" and "deep structural equality"; within a kind the values are
    compared. *)
Definition Atom_Equal (v o : Value) : bool :=
  match v, o with
  | VBoolean a, VBoolean b => bool_decide (a = b)
  | VNumber a, VNumber b => Number_Equal a b
  | VString a, VString b => bool_decide (a = b)
  | _, _ => false
  end.

(** Modelled from the spec: the package function [Equal(a, b Value)] that
    [PlainPair.Equal] calls is not at hand.  The spec has the empty list as
    "a distinguished non-pair value", the tests compare a result with the
    expected [nil] through [Equal], and otherwise the [Equal] method of the
    first value decides. *)
Fixpoint Equal (fuel : nat) (h : Heap) (a b : Value) : Outcome bool :=
  match fuel with
  | O => OutOfFuel
  | S fuel =>
      match a with
      | Nil => Done (isNil b)
      | VIdentifier l => if isNil b then Done false else Identifier_Equal h l b
      | VPlainPair _ | VLocationPair _ =>
          if isNil b then Done false else PlainPair_Equal (Equal fuel h) h a b
      | _ => Done (Atom_Equal a b)
      end
  end.

(** The kinds of the value model: both pair types are of the kind pair. *)
Inductive Kind := KNil | KBoolean | KNumber | KString | KSymbol | KPair.

Definition kind (v : Value) : Kind :=
  match v with
  | Nil => KNil
  | VBoolean _ => KBoolean
  | VNumber _ => KNumber
  | VString _ => KString
  | VIdentifier _ => KSymbol
  | VPlainPair _ | VLocationPair _ => KPair
  end.


(** The address behind a pointer value. *)
Definition addr (v : Value) : option loc :=
  match v with
  | VIdentifier l | VPlainPair l | VLocationPair l => Some l
  | _ => None
  end.




(** ** Chains of pairs *)

(** [Path h v ps t]: following the cdr fields from [v] meets the pairs [ps],
    in this order, and arrives at [t]. *)
Inductive Path (h : Heap) : Value → list Value → Value → Prop :=
| Path_nil v : Path h v [] v
| Path_step v c ps t :
    Pair_Cdr h v = Done c → Path h c ps t → Path h v (v :: ps) t.

(** A chain is a path to a value that is not a pair; a proper list is a chain
    to [Nil]. *)
Definition Chain (h : Heap) (v : Value) (ps : list Value) (t : Value) : Prop :=
  Path h v ps t ∧ isPair t = false.

(** What the loop of [PlainPair.String] writes for one car: [nil] for the nil
    interface, [Scheme()] otherwise. *)
Definition elem_String (fuel : nat) (h : Heap) (v : Value) : Outcome string :=
  if isNil v then Done "nil" else Scheme fuel h v.

(** The car of the pair [p] is written as [s]. *)
Definition car_text (fuel : nat) (h : Heap) (p : Value) (s : string) : Prop :=
  ∃ pc, load h p = Done pc ∧ elem_String fuel h (car pc) = Done s.

(** [s] occurs in [t]. *)
Fixpoint contains (s t : string) : bool :=
  String.prefix s t ||
  match t with
  | EmptyString => false
  | String _ t' => contains s t'
  end.

End Model.

Abbreviation Heap := (gmap loc Object).

(** ** [list.go], first revision: [Map] over elements and the list builtins *)
Module Rev1.
Section Rev1.
Context `{Ext : Externals}.

Section Traversal.
(** The state that a callback closes over ([count], [result], ...). *)
Context {St : Type}.

(** A callback [func(idx int, v Value) error]: it may read and write the
    store and its own variables. *)
Definition Callback : Type :=
  Z → Value → Heap → St → Outcome (Heap * St * option error).

(** The [for] loop of [Map], entered with a pair. *)
Fixpoint Map_loop (fuel : nat) (f : Callback) (idx : Z) (pair : Value)
    (h : Heap) (s : St) : Outcome (Heap * St * option error) :=
  match fuel with
  | O => OutOfFuel
  | S fuel =>
      v ← Pair_Car h pair ;
      '(h, s, err) ← f idx v h s ;
      match err with
      | Some err =>
          point ← Pair_Location h pair ;
          if Point_Undefined point then Done (h, s, Some err)
          else Done (h, s, Some (Errorf (Point_String point +:+ ": " +:+ Error err)))
      | None =>
          cdr ← Pair_Cdr h pair ;
          if isPair cdr then Map_loop fuel f (idx + 1) cdr h s
          else if isNil cdr then Done (h, s, None)
          else Done (h, s, Some ErrorInvalidList)
      end
  end.

(** [Map] *)
Definition Map (fuel : nat) (f : Callback) (list : Value) (h : Heap) (s : St)
    : Outcome (Heap * St * option error) :=
  if isNil list then Done (h, s, None)
  else if negb (isPair list) then Done (h, s, Some ErrorInvalidList)
  else Map_loop fuel f 0 list h s.

End Traversal.

(** [ListLength]: [Map] with a callback that counts its calls. *)
Definition ListLength (fuel : nat) (list : Value) (h : Heap) : Outcome (Z * bool) :=
  '(_, count, err) ← Map fuel (λ idx v h count, Done (h, count + 1, None)) list h 0 ;
  match err with
  | Some _ => Done (0, false)
  | None => Done (count, true)
  end.

(** The result of a native builtin: the store it leaves, and the Go pair
    [(Value, error)]. *)
Definition Native : Type :=
  nat → Heap → list Value → Outcome (Heap * (Value * option error)).

(** [args[i]]: an index out of range panics. *)
Definition arg (args : list Value) (i : nat) : Outcome Value :=
  match args !! i with
  | Some v => Done v
  | None => Panic
  end.

(** [cons] *)
Definition builtin_cons : Native := λ fuel h args,
  a0 ← arg args 0 ;
  a1 ← arg args 1 ;
  let '(h', p) := NewPair h a0 a1 in Done (h', (p, None)).

(** [pair?] *)
Definition builtin_pair_p : Native := λ fuel h args,
  a0 ← arg args 0 ;
  Done (h, (VBoolean (isPair a0), None)).

(** [car] *)
Definition builtin_car : Native := λ fuel h args,
  a0 ← arg args 0 ;
  if negb (isPair a0) then
    msg ← Sprintf_v fuel h a0 ;
    Done (h, (Nil, Some (Errorf ("car: not a pair: " +:+ msg))))
  else
    v ← Pair_Car h a0 ; Done (h, (v, None)).

(** [cdr] *)
Definition builtin_cdr : Native := λ fuel h args,
  a0 ← arg args 0 ;
  if negb (isPair a0) then
    msg ← Sprintf_v fuel h a0 ;
    Done (h, (Nil, Some (Errorf ("cdr: not a pair: " +:+ msg))))
  else
    v ← Pair_Cdr h a0 ; Done (h, (v, None)).

(** [set-car!] *)
Definition builtin_set_car : Native := λ fuel h args,
  a0 ← arg args 0 ;
  if negb (isPair a0) then
    msg ← Sprintf_v fuel h a0 ;
    Done (h, (Nil, Some (Errorf ("set-car!: not a pair: " +:+ msg))))
  else
    a1 ← arg args 1 ;
    '(h', err) ← SetCar h a0 a1 ;
    match err with
    | Some err => Done (h', (Nil, Some err))
    | None => Done (h', (Nil, None))
    end.

(** [set-cdr!] *)
Definition builtin_set_cdr : Native := λ fuel h args,
  a0 ← arg args 0 ;
  if negb (isPair a0) then
    msg ← Sprintf_v fuel h a0 ;
    Done (h, (Nil, Some (Errorf ("set-cdr!: not a pair: " +:+ msg))))
  else
    a1 ← arg args 1 ;
    '(h', err) ← SetCdr h a0 a1 ;
    match err with
    | Some err => Done (h', (Nil, Some err))
    | None => Done (h', (Nil, None))
    end.

(** [null?] *)
Definition builtin_null : Native := λ fuel h args,
  a0 ← arg args 0 ;
  Done (h, (VBoolean (isNil a0), None)).

(** [list?] *)
Definition builtin_list_p : Native := λ fuel h args,
  a0 ← arg args 0 ;
  '(_, ok) ← ListLength fuel a0 h ;
  Done (h, (VBoolean ok, None)).

(** The loop of [list], over the arguments from the last to the first. *)
Fixpoint list_loop (rargs : list Value) (h : Heap) (result : Value) : Heap * Value :=
  match rargs with
  | [] => (h, result)
  | a :: rargs =>
      let '(h, result) := NewPair h a result in list_loop rargs h result
  end.

(** [list] *)
Definition builtin_list : Native := λ fuel h args,
  let '(h, result) := list_loop (rev args) h Nil in Done (h, (result, None)).

Section Length.
Context `{NC : !NumberConstructor}.

(** [length] *)
Definition builtin_length : Native := λ fuel h args,
  a0 ← arg args 0 ;
  '(length, ok) ← ListLength fuel a0 h ;
  if negb ok then
    msg ← Sprintf_v fuel h a0 ;
    Done (h, (Nil, Some (Errorf ("length: not a list: " +:+ msg))))
  else Done (h, (VNumber (NewNumber 0 length), None)).

End Length.

(** The callback of [reverse]: it conses the element on [result]. *)
Definition reverse_step : Callback (St := Value) :=
  λ idx v h result, let '(h, result) := NewPair h v result in Done (h, result, None).

(** [reverse] *)
Definition builtin_reverse : Native := λ fuel h args,
  a0 ← arg args 0 ;
  '(h, result, err) ← Map fuel reverse_step a0 h Nil ;
  match err with
  | Some err => Done (h, (Nil, Some (Errorf ("reverse: " +:+ Error err))))
  | None => Done (h, (result, None))
  end.

(** The type assertion [v.(Number)]. *)
Definition asNumber (v : Value) : option Number :=
  match v with
  | VNumber n => Some n
  | _ => None
  end.

(** The loop [for i = 0; i < k && pair != nil; i++] of [list-tail] and of
    [list-ref], from [i] and [pair] on.  It is left either through the
    [return] in its body, with the value that [Cdr] did not accept, or through
    its condition, with the final [i] and [pair]. *)
Fixpoint advance (fuel : nat) (h : Heap) (k i : Z) (pair : Value)
    : Outcome (Value + Z * Value) :=
  if (i <? k) && negb (isNil pair) then
    match fuel with
    | O => OutOfFuel
    | S fuel =>
        '(pair', ok) ← Cdr h pair true ;
        if negb ok then Done (inl pair')
        else advance fuel h k (i + 1) pair'
    end
  else Done (inr (i, pair)).

(** [list-tail] *)
Definition builtin_list_tail : Native := λ fuel h args,
  a1 ← arg args 1 ;
  match asNumber a1 with
  | None =>
      msg ← Sprintf_v fuel h a1 ;
      Done (h, (Nil, Some (Errorf ("list-tail: invalid index: " +:+ msg))))
  | Some kn =>
      let k := Number_Int64 kn in
      a0 ← arg args 0 ;
      r ← advance fuel h k 0 a0 ;
      match r with
      | inl pair' =>
          msg ← Sprintf_v fuel h pair' ;
          Done (h, (Nil, Some (Errorf ("list-tail: invalid list: " +:+ msg))))
      | inr (i, pair') =>
          if i <? k then
            msg ← Sprintf_v fuel h a0 ;
            Done (h, (Nil, Some (Errorf ("list-tail: index " +:+ pretty k +:+
                                          " out of range for list " +:+ msg))))
          else Done (h, (pair', None))
      end
  end.

(** [list-ref] *)
Definition builtin_list_ref : Native := λ fuel h args,
  a1 ← arg args 1 ;
  match asNumber a1 with
  | None =>
      msg ← Sprintf_v fuel h a1 ;
      Done (h, (Nil, Some (Errorf ("list-ref: invalid index: " +:+ msg))))
  | Some kn =>
      let k := Number_Int64 kn in
      a0 ← arg args 0 ;
      r ← advance fuel h k 0 a0 ;
      match r with
      | inl pair' =>
          msg ← Sprintf_v fuel h pair' ;
          Done (h, (Nil, Some (Errorf ("list-ref: invalid list: " +:+ msg))))
      | inr (i, pair') =>
          if isNil pair' then
            msg ← Sprintf_v fuel h a0 ;
            Done (h, (Nil, Some (Errorf ("list-ref: index " +:+ pretty k +:+
                                          " out of range for list " +:+ msg))))
          else
            '(result, ok) ← Car h pair' true ;
            if negb ok then
              msg ← Sprintf_v fuel h pair' ;
              Done (h, (Nil, Some (Errorf ("list-ref: invalid list: " +:+ msg))))
            else Done (h, (result, None))
      end
  end.

End Rev1.
End Rev1.

(** ** [list.go], later revision: [MapPairs], and [Map] through it *)
Module Rev2.
Section Rev2.
Context `{Ext : Externals} {St : Type}.

(** A callback [func(idx int, p Pair) error] or [func(idx int, v Value)
    error], with the store and the variables it closes over. *)
Definition Callback : Type :=
  Z → Value → Heap → St → Outcome (Heap * St * option error).

(** The [for] loop of [MapPairs], entered with a pair. *)
Fixpoint MapPairs_loop (fuel : nat) (f : Callback) (idx : Z) (pair : Value)
    (h : Heap) (s : St) : Outcome (Heap * St * option error) :=
  match fuel with
  | O => OutOfFuel
  | S fuel =>
      '(h, s, err) ← f idx pair h s ;
      match err with
      | Some err =>
          point ← Pair_From h pair ;
          if Point_Undefined point then Done (h, s, Some err)
          else Done (h, s, Some (Errorf (Point_String point +:+ ": " +:+ Error err)))
      | None =>
          cdr ← Pair_Cdr h pair ;
          if isPair cdr then MapPairs_loop fuel f (idx + 1) cdr h s
          else if isNil cdr then Done (h, s, None)
          else Done (h, s, Some ErrorInvalidList)
      end
  end.

(** [MapPairs] *)
Definition MapPairs (fuel : nat) (f : Callback) (list : Value) (h : Heap) (s : St)
    : Outcome (Heap * St * option error) :=
  if isNil list then Done (h, s, None)
  else if negb (isPair list) then Done (h, s, Some ErrorInvalidList)
  else MapPairs_loop fuel f 0 list h s.

(** The closure that [Map] hands to [MapPairs]: the callback applied to the
    car of the pair. *)
Definition on_car (f : Callback) : Callback :=
  λ idx p h s, v ← Pair_Car h p ; f idx v h s.

(** [Map] *)
Definition Map (fuel : nat) (f : Callback) (list : Value) (h : Heap) (s : St)
    : Outcome (Heap * St * option error) :=
  MapPairs fuel (on_car f) list h s.

(** Calling [f] on the pairs [ps], in this order, with the indices [idx],
    [idx + 1], ..., up to the first call that fails. *)
Fixpoint visit (f : Callback) (idx : Z) (ps : list Value) (h : Heap) (s : St)
    : Outcome (Heap * St * option error) :=
  match ps with
  | [] => Done (h, s, None)
  | p :: ps =>
      '(h, s, err) ← f idx p h s ;
      match err with
      | Some err => Done (h, s, Some err)
      | None => visit f (idx + 1) ps h s
      end
  end.

(** The store [h'] has every pair of [h], with the same cdr field: cars may
    have been set and objects allocated, no chain has been rewired. *)
Definition Stable (h h' : Heap) : Prop :=
  ∀ v c, Pair_Cdr h v = Done c → Pair_Cdr h' v = Done c.

(** A callback that rewires no chain. *)
Definition keeps (f : Callback) : Prop :=
  ∀ idx p h s h' s' err, f idx p h s = Done (h', s', err) → Stable h h'.

(** A callback that returns without an error on every pair of the store. *)
Definition never_fails (f : Callback) : Prop :=
  ∀ idx p h s pc, load h p = Done pc → ∃ h' s', f idx p h s = Done (h', s', None).

(** ** What a traversal does, told without the loop

    How a traversal applies its callback at a pair, as a relation between the
    index, the pair, the store and the state before the call and what the
    call returns.  [MapPairs] hands the callback the pair; [Map] hands it the
    car field that the pair has when the call is made. *)
Definition Call : Type := Z → Value → Heap → St → Heap * St * option error → Prop.

Definition calls_on_pair (g : Callback) : Call :=
  λ idx p h s r, g idx p h s = Done r.

Definition calls_on_car (f : Callback) : Call :=
  λ idx p h s r, ∃ pc, load h p = Done pc ∧ f idx (car pc) h s = Done r.

(** [Walk R idx p h s ps q h' s']: from [p], with the index [idx], the store
    [h] and the state [s], the calls at the pairs [ps], with the indices
    [idx], [idx + 1], ..., return without error, one after the other; after
    each call the cdr field of its pair is read in the store that the call
    left, whatever the call did to the store, and is the next value; the walk
    arrives at [q] with the store [h'] and the state [s']. *)
Inductive Walk (R : Call) :
    Z → Value → Heap → St → list Value → Value → Heap → St → Prop :=
| Walk_nil idx p h s : Walk R idx p h s [] p h s
| Walk_step idx p h s h1 s1 c ps q h' s' :
    R idx p h s (h1, s1, None) →
    Pair_Cdr h1 p = Done c →
    Walk R (idx + 1) c h1 s1 ps q h' s' →
    Walk R idx p h s (p :: ps) q h' s'.

(** The calls rewire no chain; the calls return without an error at every
    pair of the store. *)
Definition Call_keeps (R : Call) : Prop :=
  ∀ idx p h s h' s' err, R idx p h s (h', s', err) → Stable h h'.

Definition Call_never_fails (R : Call) : Prop :=
  ∀ idx p h s pc, load h p = Done pc → ∃ h' s', R idx p h s (h', s', None).

(** What a traversal [T] whose calls are [R] does about lists that are not
    proper.  Only the third part asks anything of the callback. *)
Definition invalid_list_law
    (T : nat → Value → Heap → St → Outcome (Heap * St * option error))
    (R : Call) : Prop :=
  (∀ fuel h s, T fuel Nil h s = Done (h, s, None))
  ∧ (∀ fuel v h s, isNil v = false → isPair v = false →
       T fuel v h s = Done (h, s, Some ErrorInvalidList))
  ∧ (∀ (fuel : nat) v ps h s,
       Call_keeps R → Call_never_fails R → Chain h v ps Nil → (length ps ≤ fuel)%nat →
       ∃ h' s', Walk R 0 v h s ps Nil h' s'
              ∧ T fuel v h s = Done (h', s', None))
  ∧ (∀ (fuel : nat) v ps t h s h' s',
       Walk R 0 v h s ps t h' s' → ps ≠ [] → isPair t = false →
       (length ps ≤ fuel)%nat →
       T fuel v h s =
         Done (h', s', if isNil t then None else Some ErrorInvalidList))
  ∧ (∀ fuel v h s h' s',
       T fuel v h s = Done (h', s', Some ErrorInvalidList) →
       (isNil v = false ∧ isPair v = false ∧ h' = h ∧ s' = s)
       ∨ (∃ ps t, Walk R 0 v h s ps t h' s' ∧ ps ≠ []
                ∧ isPair t = false ∧ isNil t = false)
       ∨ (∃ ps q h1 s1 point,
            Walk R 0 v h s ps q h1 s1
            ∧ R (Z.of_nat (length ps)) q h1 s1 (h', s', Some ErrorInvalidList)
            ∧ Pair_From h' q = Done point ∧ Point_Undefined point = true)).

(** What a traversal [T] whose calls are [R] returns when the call at the
    pair [q], after the calls at the pairs [ps], fails; and that an error
    other than [ErrorInvalidList] is returned in this way only. *)
Definition callback_failure_law
    (T : nat → Value → Heap → St → Outcome (Heap * St * option error))
    (R : Call) : Prop :=
  (∀ (fuel : nat) v ps q h s h1 s1 h2 s2 err point,
     Walk R 0 v h s ps q h1 s1 →
     R (Z.of_nat (length ps)) q h1 s1 (h2, s2, Some err) →
     Pair_From h2 q = Done point →
     (length ps < fuel)%nat →
     T fuel v h s =
       Done (h2, s2,
             Some (if Point_Undefined point then err
                   else Errorf (Point_String point +:+ ": " +:+ Error err))))
  ∧ (∀ fuel v h s h2 s2 e,
       T fuel v h s = Done (h2, s2, Some e) → e ≠ ErrorInvalidList →
       ∃ ps q h1 s1 err point,
         Walk R 0 v h s ps q h1 s1
         ∧ R (Z.of_nat (length ps)) q h1 s1 (h2, s2, Some err)
         ∧ Pair_From h2 q = Done point
         ∧ e = (if Point_Undefined point then err
                else Errorf (Point_String point +:+ ": " +:+ Error err))).

End Rev2.

Section Lists.
Context `{Ext : Externals}.

(** [ListLength] *)
Definition ListLength (fuel : nat) (list : Value) (h : Heap) : Outcome (Z * bool) :=
  '(_, count, err) ← Map fuel (λ idx v h count, Done (h, count + 1, None)) list h 0 ;
  match err with
  | Some _ => Done (0, false)
  | None => Done (count, true)
  end.

(** [ListPairs]: the pairs of the list, as a slice. *)
Definition ListPairs (fuel : nat) (list : Value) (h : Heap)
    : Outcome (Datatypes.list Value * bool) :=
  '(_, result, err) ←
    MapPairs fuel (λ idx p h result, Done (h, (result ++ [p])%list, None)) list h [] ;
  match err with
  | Some _ => Done ([], false)
  | None => Done (result, true)
  end.

(** [ListValues]: the elements of the list, as a slice. *)
Definition ListValues (fuel : nat) (list : Value) (h : Heap)
    : Outcome (Datatypes.list Value * bool) :=
  '(_, result, err) ←
    Map fuel (λ idx v h result, Done (h, (result ++ [v])%list, None)) list h [] ;
  match err with
  | Some _ => Done ([], false)
  | None => Done (result, true)
  end.

End Lists.
End Rev2.

(** ** A concrete instance of the parameters and sample stores *)
Module Sample.

(** Numbers are integers printed in decimal, booleans print as [#t] and [#f],
    a point is a line number and line [0] is the undefined point. *)
Definition ext : Externals := {|
  Number := Z;
  Number_Int64 := λ n, n;
  Number_Scheme := pretty;
  Number_String := pretty;
  Number_Equal := Z.eqb;
  Boolean_Scheme := λ b, if b then "#t" else "#f";
  Boolean_String := λ b, if b then "#t" else "#f";
  String_Scheme := λ s, s;
  String_String := λ s, s;
  Point := Z;
  Point_Undefined := λ p, Z.eqb p 0;
  Point_String := pretty;
  Point_zero := 0
|}.
#[local] Existing Instance ext.

Definition newNumber : NumberConstructor := {| NewNumber := λ base value, value |}.
#[local] Existing Instance newNumber.

Definition num (n : Z) : Value := VNumber (n : @Number ext).

(** [(list 1 2 3)]: three cells, allocated from the last one. *)
Definition l123 : Value := VPlainPair 3%positive.
Definition l23 : Value := VPlainPair 2%positive.
Definition l3 : Value := VPlainPair 1%positive.
Definition h123 : Heap :=
  <[3%positive := OPlainPair (mkPlainPair (num 1) l23)]>
    (<[2%positive := OPlainPair (mkPlainPair (num 2) l3)]>
       (<[1%positive := OPlainPair (mkPlainPair (num 3) Nil)]> ∅)).

(** [(1 2 . 3)]: two cells. *)
Definition ldot : Value := VPlainPair 2%positive.
Definition ldot2 : Value := VPlainPair 1%positive.
Definition hdot : Heap :=
  <[2%positive := OPlainPair (mkPlainPair (num 1) ldot2)]>
    (<[1%positive := OPlainPair (mkPlainPair (num 2) (num 3))]> ∅).

(** One cell [(1)] read at line 7. *)
Definition lloc : Value := VLocationPair 1%positive.
Definition hloc : Heap :=
  <[1%positive := OLocationPair (mkLocationPair 7 9 (mkPlainPair (num 1) Nil))]> ∅.

(** A circular list of one cell, as [(set-cdr! p p)] leaves it. *)
Definition lcyc : Value := VPlainPair 1%positive.
Definition hcyc : Heap := <[1%positive := OPlainPair (mkPlainPair (num 1) lcyc)]> ∅.

(** The proper list [(c 2 3)] whose first element [c] is a circular list:
    the cells of [(1 2 3)], a cell [c] whose cdr is [c], and a first cell. *)
Definition ccyc : Value := VPlainPair 4%positive.
Definition lcirc : Value := VPlainPair 5%positive.
Definition hcirc : Heap :=
  <[5%positive := OPlainPair (mkPlainPair ccyc l23)]>
    (<[4%positive := OPlainPair (mkPlainPair (num 0) ccyc)]> h123).

(** [(1 2 3)] after the cdr of its first cell was set to [9]. *)
Definition hcut : Heap := <[3%positive := OPlainPair (mkPlainPair (num 1) (num 9))]> h123.

(** [(1 2)] read at the lines 7 and 8: two cells with locations. *)
Definition lq1 : Value := VLocationPair 2%positive.
Definition lq2 : Value := VLocationPair 1%positive.
Definition hloc2 : Heap :=
  <[2%positive := OLocationPair (mkLocationPair 7 9 (mkPlainPair (num 1) lq2))]>
    (<[1%positive := OLocationPair (mkLocationPair 8 9 (mkPlainPair (num 2) Nil))]> ∅).

(** Two identifier objects with the one name [foo]. *)
Definition foo : Identifier := mkIdentifier "foo" 0 Nil 0.
Definition foo1 : loc := 1%positive.
Definition foo2 : loc := 2%positive.
Definition hfoo : Heap := <[foo2 := OIdentifier foo]> (<[foo1 := OIdentifier foo]> ∅).

(** A callback that records its calls, and does nothing else. *)
Definition record_calls : Rev2.Callback (St := list (Z * Value)) :=
  λ idx p h s, Done (h, (s ++ [(idx, p)])%list, None).

(** A comparison that gives up on everything but numbers. *)
Definition numbers_only (a b : Value) : Outcome bool :=
  match a, b with
  | VNumber x, VNumber y => Done (Z.eqb x y)
  | _, _ => Panic
  end.

(** A callback on pairs that sets the cdr of the pair it is called on, and
    never fails. *)
Definition cut (t : Value) : Rev2.Callback (St := unit) :=
  λ idx p h s, '(h', _) ← SetCdr h p t ; Done (h', s, None).

(** A callback on elements that fails with [err] on the number [bad]. *)
Definition fails_on (bad : Z) (err : error) : Rev2.Callback (St := unit) :=
  λ idx v h s,
    Done (h, s, match v with
                | VNumber n => if Z.eqb n bad then Some err else None
                | _ => None
                end).

(** A callback that fails with [err] on every call. *)
Definition always_fails (err : error) : Rev2.Callback (St := unit) :=
  λ idx p h s, Done (h, s, Some err).

End Sample.

(** * Properties *)

Section Basics.
Context `{Ext : Externals}.

Lemma load_isPair h v p : load h v = Done p → isPair v = true.
Proof. destruct v; simpl; congruence. Qed.

Lemma load_not_nil h v p : load h v = Done p → isNil v = false.
Proof. destruct v; simpl; congruence. Qed.

Lemma isPair_not_nil v : isPair v = true → isNil v = false.
Proof. destruct v; simpl; congruence. Qed.

Lemma Pair_Cdr_load h v p : load h v = Done p → Pair_Cdr h v = Done (cdr p).
Proof. unfold Pair_Cdr. intros ->. reflexivity. Qed.

Lemma Pair_Car_load h v p : load h v = Done p → Pair_Car h v = Done (car p).
Proof. unfold Pair_Car. intros ->. reflexivity. Qed.

Lemma Pair_Cdr_inv h v c :
  Pair_Cdr h v = Done c → ∃ p, load h v = Done p ∧ cdr p = c.
Proof.
  unfold Pair_Cdr. destruct (load h v) as [p| |]; simpl; try discriminate.
  intros [= <-]. eauto.
Qed.

Lemma Cdr_load h v p : load h v = Done p → Cdr h v true = Done (cdr p, true).
Proof.
  intros H. unfold Cdr. rewrite (load_isPair _ _ _ H). simpl.
  rewrite (Pair_Cdr_load _ _ _ H). reflexivity.
Qed.

Lemma Car_load h v p : load h v = Done p → Car h v true = Done (car p, true).
Proof.
  intros H. unfold Car. rewrite (load_isPair _ _ _ H). simpl.
  rewrite (Pair_Car_load _ _ _ H). reflexivity.
Qed.

(** The loop of [list-tail] and [list-ref] is not entered at all when the
    index is not above [i], whatever the fuel. *)
Lemma advance_done fuel h k i v :
  k ≤ i → Rev1.advance fuel h k i v = Done (inr (i, v)).
Proof.
  intros Hk. assert ((i <? k) = false) as E by (apply Z.ltb_ge; lia).
  destruct fuel; simpl; rewrite E; reflexivity.
Qed.

Lemma advance_nil fuel h k i : Rev1.advance fuel h k i Nil = Done (inr (i, Nil)).
Proof. destruct fuel; simpl; rewrite andb_false_r; reflexivity. Qed.

Lemma advance_step fuel h k i v p :
  i < k → load h v = Done p →
  Rev1.advance (S fuel) h k i v = Rev1.advance fuel h k (i + 1) (cdr p).
Proof.
  intros Hk Hl. assert ((i <? k) = true) as E by (apply Z.ltb_lt; lia).
  simpl. rewrite E, (load_not_nil _ _ _ Hl). simpl.
  rewrite (Cdr_load _ _ _ Hl). reflexivity.
Qed.

End Basics.

Section Rendering.
Context `{Ext : Externals}.

Lemma bind_Done_inv {A B} (m : Outcome A) (k : A → Outcome B) b :
  m ≫= k = Done b → ∃ a, m = Done a ∧ k a = Done b.
Proof. destruct m; simpl; try discriminate. eauto. Qed.

(** More fuel does not change a rendering that was completed. *)
Lemma String_loop_mono (fuel fuel' : nat) h i first s :
  (fuel ≤ fuel')%nat →
  String_loop fuel h i first = Done s → String_loop fuel' h i first = Done s.
Proof.
  revert fuel' i first s.
  induction fuel as [|fuel IH]; intros fuel' i first s Hle; [discriminate|].
  destruct fuel' as [|fuel']; [lia|]. assert (fuel ≤ fuel')%nat as Hle' by lia.
  simpl. destruct (load h i) as [p| |]; simpl; try discriminate.
  assert (∀ q r, (String_loop fuel h q true ≫= λ s0, Done ("(" +:+ s0 +:+ ")")) = Done r →
                 (String_loop fuel' h q true ≫= λ s0, Done ("(" +:+ s0 +:+ ")")) = Done r)
    as Hpair.
  { intros q r Hq. apply bind_Done_inv in Hq as (s0 & Hs0 & Hr).
    rewrite (IH _ _ _ _ Hle' Hs0). exact Hr. }
  intros H. apply bind_Done_inv in H as (elem & Helem & H).
  assert ((if isNil (car p) then Done "nil"
           else Scheme_with
                  (λ q, String_loop fuel' h q true ≫= λ s0, Done ("(" +:+ s0 +:+ ")"))
                  h (car p)) = Done elem) as ->.
  { destruct (car p); simpl in *; auto. }
  simpl. destruct (isPair (cdr p)) eqn:Ep.
  - apply bind_Done_inv in H as (rest & Hrest & H).
    rewrite (IH _ _ _ _ Hle' Hrest). exact H.
  - destruct (isNil (cdr p)); [exact H|].
    apply bind_Done_inv in H as (tail & Htail & H).
    assert (Sprintf_v_with
              (λ q, String_loop fuel' h q true ≫= λ s0, Done ("(" +:+ s0 +:+ ")"))
              h (cdr p) = Done tail) as ->.
    { destruct (cdr p); simpl in *; auto. }
    exact H.
Qed.

Lemma PlainPair_String_mono (fuel fuel' : nat) h v s :
  (fuel ≤ fuel')%nat →
  PlainPair_String fuel h v = Done s → PlainPair_String fuel' h v = Done s.
Proof.
  intros Hle H. unfold PlainPair_String in *.
  apply bind_Done_inv in H as (s0 & Hs0 & H).
  rewrite (String_loop_mono _ _ _ _ _ _ Hle Hs0). exact H.
Qed.

Lemma Sprintf_v_mono (fuel fuel' : nat) h v s :
  (fuel ≤ fuel')%nat → Sprintf_v fuel h v = Done s → Sprintf_v fuel' h v = Done s.
Proof.
  intros Hle. unfold Sprintf_v. destruct v; simpl; auto;
    apply PlainPair_String_mono; exact Hle.
Qed.

Lemma Scheme_mono (fuel fuel' : nat) h v s :
  (fuel ≤ fuel')%nat → Scheme fuel h v = Done s → Scheme fuel' h v = Done s.
Proof.
  intros Hle. unfold Scheme. destruct v; simpl; auto;
    apply PlainPair_String_mono; exact Hle.
Qed.

Lemma elem_String_mono (fuel fuel' : nat) h v s :
  (fuel ≤ fuel')%nat → elem_String fuel h v = Done s → elem_String fuel' h v = Done s.
Proof.
  intros Hle. unfold elem_String. destruct (isNil v); [auto|].
  apply Scheme_mono; exact Hle.
Qed.

(** The value that is no pair is written without any fuel. *)
Lemma Sprintf_v_atom (fuel fuel' : nat) h v :
  isPair v = false → Sprintf_v fuel h v = Sprintf_v fuel' h v.
Proof. destruct v; simpl; intros; try discriminate; reflexivity. Qed.

End Rendering.

Section Indexing.
Context `{Ext : Externals}.
Import Rev1.

(** Along a proper list, the loop runs to the empty tail when the index
    allows it. *)
Lemma advance_to_end (fuel : nat) h k i v ps :
  Path h v ps Nil → (length ps ≤ fuel)%nat → i + Z.of_nat (length ps) ≤ k →
  advance fuel h k i v = Done (inr (i + Z.of_nat (length ps), Nil)).
Proof.
  intros HP. remember Nil as t eqn:Et. revert fuel i.
  induction HP as [v|v c ps t Hc HP IH]; intros fuel i Hf Hk; subst.
  - simpl. rewrite Z.add_0_r. apply advance_nil.
  - cbn [length] in Hf, Hk |- *. destruct fuel as [|fuel]; [lia|].
    apply Pair_Cdr_inv in Hc as (p & Hp & <-).
    rewrite (advance_step _ _ _ _ _ p) by (lia || assumption).
    rewrite IH by (reflexivity || lia). do 3 f_equal. lia.
Qed.

(** Every error of [list-tail] says so in its first words. *)
Lemma list_tail_error_prefix fuel h args r e :
  builtin_list_tail fuel h args = Done r → r.2.2 = Some e →
  String.prefix "list-tail: " (Error e) = true.
Proof.
  unfold builtin_list_tail. intros H He.
  apply bind_Done_inv in H as (a1 & _ & H).
  destruct (asNumber a1) as [kn|].
  - apply bind_Done_inv in H as (a0 & _ & H).
    apply bind_Done_inv in H as (res & _ & H).
    destruct res as [bad|[i t]].
    + apply bind_Done_inv in H as (msg & _ & H). injection H as <-.
      injection He as <-. reflexivity.
    + destruct (i <? Number_Int64 kn).
      * apply bind_Done_inv in H as (msg & _ & H). injection H as <-.
        injection He as <-. reflexivity.
      * injection H as <-. discriminate He.
  - apply bind_Done_inv in H as (msg & _ & H). injection H as <-.
    injection He as <-. reflexivity.
Qed.

(** The two builtins on a list and a number: the loop, and then the return. *)
Lemma list_tail_unfold fuel h l kn :
  builtin_list_tail fuel h [l; VNumber kn] =
  advance fuel h (Number_Int64 kn) 0 l ≫= λ r,
  match r with
  | inl pair' =>
      msg ← Sprintf_v fuel h pair' ;
      Done (h, (Nil, Some (Errorf ("list-tail: invalid list: " +:+ msg))))
  | inr (i, pair') =>
      if i <? Number_Int64 kn then
        msg ← Sprintf_v fuel h l ;
        Done (h, (Nil, Some (Errorf ("list-tail: index " +:+ pretty (Number_Int64 kn) +:+
                                      " out of range for list " +:+ msg))))
      else Done (h, (pair', None))
  end.
Proof. reflexivity. Qed.

Lemma list_ref_unfold fuel h l kn :
  builtin_list_ref fuel h [l; VNumber kn] =
  advance fuel h (Number_Int64 kn) 0 l ≫= λ r,
  match r with
  | inl pair' =>
      msg ← Sprintf_v fuel h pair' ;
      Done (h, (Nil, Some (Errorf ("list-ref: invalid list: " +:+ msg))))
  | inr (i, pair') =>
      if isNil pair' then
        msg ← Sprintf_v fuel h l ;
        Done (h, (Nil, Some (Errorf ("list-ref: index " +:+ pretty (Number_Int64 kn) +:+
                                      " out of range for list " +:+ msg))))
      else
        '(result, ok) ← Car h pair' true ;
        if negb ok then
          msg ← Sprintf_v fuel h pair' ;
          Done (h, (Nil, Some (Errorf ("list-ref: invalid list: " +:+ msg))))
        else Done (h, (result, None))
  end.
Proof. reflexivity. Qed.

Local Ltac step := erewrite advance_step; [|lia|eassumption]; cbn [cdr].

(** C1 (amended). On a proper list of exactly three elements [list-tail]
    succeeds for the indices 0 to 3, with the empty list for 3, and [list-ref]
    returns the element for the indices 0 to 2.  For [list-tail] at 4 and for
    [list-ref] at 3 the builtin renders the whole list with the verb [%v] and
    returns the error whose text names the index and that rendering: it
    returns this error when the rendering returns, and does not return when
    the rendering does not. *)
Theorem C1_three_element_list (fuel : nat) (h : Heap) (l p1 p2 e0 e1 e2 : Value)
    (kn : Number) :
  load h l = Done (mkPlainPair e0 p1) →
  load h p1 = Done (mkPlainPair e1 p2) →
  load h p2 = Done (mkPlainPair e2 Nil) →
  (3 ≤ fuel)%nat →
  (Number_Int64 kn = 0 →
     builtin_list_tail fuel h [l; VNumber kn] = Done (h, (l, None)) ∧
     builtin_list_ref fuel h [l; VNumber kn] = Done (h, (e0, None)))
  ∧ (Number_Int64 kn = 1 →
     builtin_list_tail fuel h [l; VNumber kn] = Done (h, (p1, None)) ∧
     builtin_list_ref fuel h [l; VNumber kn] = Done (h, (e1, None)))
  ∧ (Number_Int64 kn = 2 →
     builtin_list_tail fuel h [l; VNumber kn] = Done (h, (p2, None)) ∧
     builtin_list_ref fuel h [l; VNumber kn] = Done (h, (e2, None)))
  ∧ (Number_Int64 kn = 3 →
     builtin_list_tail fuel h [l; VNumber kn] = Done (h, (Nil, None)) ∧
     builtin_list_ref fuel h [l; VNumber kn] =
       Sprintf_v fuel h l ≫= λ msg,
       Done (h, (Nil, Some (Errorf ("list-ref: index 3 out of range for list " +:+ msg)))))
  ∧ (Number_Int64 kn = 4 →
     builtin_list_tail fuel h [l; VNumber kn] =
       Sprintf_v fuel h l ≫= λ msg,
       Done (h, (Nil, Some (Errorf ("list-tail: index 4 out of range for list " +:+ msg))))).
Proof.
  intros H0 H1 H2 Hf.
  destruct fuel as [|[|[|fuel]]]; try lia.
  pose proof (load_not_nil _ _ _ H0) as N0.
  pose proof (load_not_nil _ _ _ H1) as N1.
  pose proof (load_not_nil _ _ _ H2) as N2.
  rewrite list_tail_unfold, list_ref_unfold.
  split; [|split; [|split; [|split]]]; intros Hk; rewrite Hk; [split|split|split|split|].
  - rewrite advance_done by lia. reflexivity.
  - rewrite advance_done by lia. simpl. rewrite N0, (Car_load _ _ _ H0). reflexivity.
  - step. rewrite advance_done by lia. reflexivity.
  - step. rewrite advance_done by lia.
    simpl. rewrite N1, (Car_load _ _ _ H1). reflexivity.
  - do 2 step. rewrite advance_done by lia. reflexivity.
  - do 2 step. rewrite advance_done by lia.
    simpl. rewrite N2, (Car_load _ _ _ H2). reflexivity.
  - do 3 step. rewrite advance_done by lia. reflexivity.
  - do 3 step. rewrite advance_done by lia. reflexivity.
  - do 3 step. rewrite advance_nil. reflexivity.
Qed.

(** C2 (amended). When the traversal of [list-ref] ends at the empty list the
    error text names the index and the whole list argument, not the tail that
    was reached; and no error of [list-tail] is this error. *)
Theorem C2_list_ref_out_of_range (fuel : nat) (h : Heap) (l : Value)
    (ps : list Value) (kn : Number) (msg : string) :
  Chain h l ps Nil →
  ps = [] ∨ Z.of_nat (length ps) ≤ Number_Int64 kn →
  (length ps ≤ fuel)%nat →
  Sprintf_v fuel h l = Done msg →
  builtin_list_ref fuel h [l; VNumber kn] =
    Done (h, (Nil, Some (Errorf ("list-ref: index " +:+ pretty (Number_Int64 kn) +:+
                                  " out of range for list " +:+ msg))))
  ∧ ∀ fuel' h' args r e,
      builtin_list_tail fuel' h' args = Done r → r.2.2 = Some e →
      e ≠ Errorf ("list-ref: index " +:+ pretty (Number_Int64 kn) +:+
                  " out of range for list " +:+ msg).
Proof.
  intros [HP _] Hk Hf Hmsg. split.
  - rewrite list_ref_unfold.
    assert (∃ i, advance fuel h (Number_Int64 kn) 0 l = Done (inr (i, Nil))) as [i ->].
    { destruct Hk as [->|Hk].
      - inversion HP; subst. eexists. apply advance_nil.
      - eexists. apply advance_to_end; [exact HP|exact Hf|lia]. }
    simpl. rewrite Hmsg. reflexivity.
  - intros fuel' h' args r e Hr He ->.
    pose proof (list_tail_error_prefix _ _ _ _ _ Hr He) as Hp.
    simpl in Hp. discriminate Hp.
Qed.

(** C10. For a negative index [list-tail] returns its list argument, whatever
    it is, and reports no error; [list-ref] returns the car of a pair, and on
    the empty list it reports the out-of-range error that names the index;
    neither ever answers a negative index with the invalid-index error. *)
Theorem C10_negative_index (fuel : nat) (h : Heap) (l : Value) (kn : Number) :
  Number_Int64 kn < 0 →
  builtin_list_tail fuel h [l; VNumber kn] = Done (h, (l, None))
  ∧ (∀ p, load h l = Done p →
       builtin_list_ref fuel h [l; VNumber kn] = Done (h, (car p, None)))
  ∧ builtin_list_ref fuel h [Nil; VNumber kn] =
      Done (h, (Nil, Some (Errorf ("list-ref: index " +:+ pretty (Number_Int64 kn) +:+
                                    " out of range for list <nil>"))))
  ∧ (∀ r, builtin_list_tail fuel h [l; VNumber kn] = Done r →
       ∀ e, r.2.2 = Some e → String.prefix "list-tail: invalid index" (Error e) = false)
  ∧ (∀ r, builtin_list_ref fuel h [l; VNumber kn] = Done r →
       ∀ e, r.2.2 = Some e → String.prefix "list-ref: invalid index" (Error e) = false).
Proof.
  intros Hk.
  assert ((0 <? Number_Int64 kn) = false) as E by (apply Z.ltb_ge; lia).
  assert (builtin_list_tail fuel h [l; VNumber kn] = Done (h, (l, None))) as Htail.
  { unfold builtin_list_tail. simpl. rewrite advance_done by lia. simpl.
    rewrite E. reflexivity. }
  split; [exact Htail|]. split; [|split; [|split]].
  - intros p Hp. unfold builtin_list_ref. simpl. rewrite advance_done by lia.
    simpl. rewrite (load_not_nil _ _ _ Hp), (Car_load _ _ _ Hp). reflexivity.
  - unfold builtin_list_ref. simpl. rewrite advance_nil. reflexivity.
  - intros r Hr e He. rewrite Htail in Hr. injection Hr as <-. discriminate He.
  - intros r Hr e He. unfold builtin_list_ref in Hr. simpl in Hr.
    rewrite advance_done in Hr by lia. simpl in Hr.
    destruct (isNil l) eqn:En.
    + destruct l; try discriminate En. simpl in Hr. injection Hr as <-.
      simpl in He. injection He as <-. reflexivity.
    + destruct (Car h l true) as [[res ok]| |] eqn:Ec; simpl in Hr; try discriminate Hr.
      destruct ok; simpl in Hr.
      * injection Hr as <-. discriminate He.
      * destruct (Sprintf_v fuel h l); simpl in Hr; try discriminate Hr.
        injection Hr as <-. simpl in He. injection He as <-. reflexivity.
Qed.

End Indexing.

Section Mutation.
Context `{Ext : Externals}.
Import Rev1.

(** What a write through a pair leaves behind: the fields as given by [f],
    the location of the pair as it was, every other object as it was. *)
Lemma store_spec h v f p :
  load h v = Done p →
  ∃ h', store h v f = Done h'
    ∧ load h' v = Done (f p)
    ∧ Pair_From h' v = Pair_From h v
    ∧ Pair_To h' v = Pair_To h v
    ∧ ∀ l, addr v ≠ Some l → h' !! l = h !! l.
Proof.
  destruct v as [| | | | |l|l]; simpl; try discriminate.
  - destruct (h !! l) as [[| |]|] eqn:E; try discriminate. intros [= ->].
    eexists. split; [reflexivity|]. simpl.
    rewrite lookup_insert_eq.
    repeat split. intros l' Hl'. apply lookup_insert_ne. congruence.
  - destruct (h !! l) as [[| |]|] eqn:E; try discriminate. intros [= <-].
    eexists. split; [reflexivity|]. simpl.
    rewrite lookup_insert_eq.
    repeat split. intros l' Hl'. apply lookup_insert_ne. congruence.
Qed.

(** C6 (amended). A successful [set-car!] or [set-cdr!] returns the nil
    value, which is the empty list itself: [null?] of the result is true. *)
Theorem C6_set_returns_empty_list (fuel : nat) (h : Heap) (pair obj : Value)
    (p : PlainPair) :
  load h pair = Done p →
  (∃ h', builtin_set_car fuel h [pair; obj] = Done (h', (Nil, None))
       ∧ builtin_null fuel h' [Nil] = Done (h', (VBoolean true, None)))
  ∧ (∃ h', builtin_set_cdr fuel h [pair; obj] = Done (h', (Nil, None))
       ∧ builtin_null fuel h' [Nil] = Done (h', (VBoolean true, None))).
Proof.
  intros Hp. pose proof (load_isPair _ _ _ Hp) as Hpair. split.
  - destruct (store_spec h pair (λ q, mkPlainPair obj (cdr q)) p Hp) as (h' & Hs & _).
    exists h'. split; [|reflexivity].
    unfold builtin_set_car, SetCar. simpl. rewrite Hpair. simpl. rewrite Hs. reflexivity.
  - destruct (store_spec h pair (λ q, mkPlainPair (car q) obj) p Hp) as (h' & Hs & _).
    exists h'. split; [|reflexivity].
    unfold builtin_set_cdr, SetCdr. simpl. rewrite Hpair. simpl. rewrite Hs. reflexivity.
Qed.

(** C7. [set-car!] and [set-cdr!] answer a first argument that is no pair
    with the error that shows it; on a pair they replace the one field in
    place: the other field, the location of the pair and every other object
    of the store stay as they were. *)
Theorem C7_set_car_set_cdr (fuel : nat) (h : Heap) (args : list Value) (a0 : Value) :
  args !! 0%nat = Some a0 →
  (isPair a0 = false → ∀ msg, Sprintf_v fuel h a0 = Done msg →
     builtin_set_car fuel h args =
       Done (h, (Nil, Some (Errorf ("set-car!: not a pair: " +:+ msg))))
     ∧ builtin_set_cdr fuel h args =
       Done (h, (Nil, Some (Errorf ("set-cdr!: not a pair: " +:+ msg)))))
  ∧ (∀ a1 p, args !! 1%nat = Some a1 → load h a0 = Done p →
     (∃ h', builtin_set_car fuel h args = Done (h', (Nil, None))
          ∧ load h' a0 = Done (mkPlainPair a1 (cdr p))
          ∧ Pair_From h' a0 = Pair_From h a0
          ∧ Pair_To h' a0 = Pair_To h a0
          ∧ ∀ l, addr a0 ≠ Some l → h' !! l = h !! l)
     ∧ (∃ h', builtin_set_cdr fuel h args = Done (h', (Nil, None))
          ∧ load h' a0 = Done (mkPlainPair (car p) a1)
          ∧ Pair_From h' a0 = Pair_From h a0
          ∧ Pair_To h' a0 = Pair_To h a0
          ∧ ∀ l, addr a0 ≠ Some l → h' !! l = h !! l)).
Proof.
  intros H0. split.
  - intros Hn msg Hmsg. unfold builtin_set_car, builtin_set_cdr, arg.
    rewrite H0. simpl. rewrite Hn. simpl. rewrite Hmsg. split; reflexivity.
  - intros a1 p H1 Hp. pose proof (load_isPair _ _ _ Hp) as Hpair.
    unfold builtin_set_car, builtin_set_cdr, arg, SetCar, SetCdr.
    rewrite H0, H1. simpl. rewrite Hpair. simpl. split.
    + destruct (store_spec h a0 (λ q, mkPlainPair a1 (cdr q)) p Hp) as (h' & Hs & Hrest).
      exists h'. rewrite Hs. split; [reflexivity|exact Hrest].
    + destruct (store_spec h a0 (λ q, mkPlainPair (car q) a1) p Hp) as (h' & Hs & Hrest).
      exists h'. rewrite Hs. split; [reflexivity|exact Hrest].
Qed.

End Mutation.

Section Identity.
Context `{Ext : Externals}.

Lemma load_weaken (h h' : Heap) v p : h ⊆ h' → load h v = Done p → load h' v = Done p.
Proof.
  intros Hsub. destruct v as [| | | | |l|l]; simpl; try discriminate.
  - destruct (h !! l) as [o|] eqn:E; [|discriminate].
    rewrite (lookup_weaken _ _ _ _ E Hsub). auto.
  - destruct (h !! l) as [o|] eqn:E; [|discriminate].
    rewrite (lookup_weaken _ _ _ _ E Hsub). auto.
Qed.



(** [NewPair] makes a cell at an address that had no object. *)
Lemma NewPair_spec (h h' : Heap) a b p :
  NewPair h a b = (h', p) →
  ∃ l, p = VPlainPair l ∧ h !! l = None ∧ h' = <[l := OPlainPair (mkPlainPair a b)]> h.
Proof.
  unfold NewPair, alloc. intros [= <- <-]. eexists. split; [reflexivity|].
  split; [|reflexivity]. apply not_elem_of_dom. apply is_fresh.
Qed.

(** C8 (amended). [Eq] on pairs is true exactly for the same cell of the same
    dynamic type; [Eq] on identifiers is [Equal]: true exactly when the names
    are the same, whatever the storage. *)
Theorem C8_eq_identity :
  (∀ l o, PlainPair_Eq l o = true ↔ o = VPlainPair l)
  ∧ (∀ l o, LocationPair_Eq l o = true ↔ o = VLocationPair l)
  ∧ (∀ h l o, Identifier_Eq h l o = Identifier_Equal h l o)
  ∧ (∀ (h : Heap) l1 l2 i j,
       h !! l1 = Some (OIdentifier i) → h !! l2 = Some (OIdentifier j) →
       Identifier_Eq h l1 (VIdentifier l2) = Done (bool_decide (Name i = Name j)))
  ∧ (∀ h l o, kind o ≠ KSymbol → Identifier_Eq h l o = Done false).
Proof.
  split; [|split; [|split; [|split]]].
  - intros l o. destruct o; simpl; try (split; [discriminate|congruence]).
    rewrite bool_decide_eq_true. split; congruence.
  - intros l o. destruct o; simpl; try (split; [discriminate|congruence]).
    rewrite bool_decide_eq_true. split; congruence.
  - reflexivity.
  - intros h l1 l2 i j H1 H2. unfold Identifier_Eq, Identifier_Equal, loadIdentifier.
    rewrite H1, H2. reflexivity.
  - intros h l o Hk. destruct o; simpl in *; try reflexivity. congruence.
Qed.








End Identity.

Section Traversal.
Context `{Ext : Externals} {St : Type}.
Import Rev2.

Implicit Types (f g : Callback (St := St)).

Lemma Stable_refl h : Stable h h.
Proof. intros v c H. exact H. Qed.

Lemma Stable_trans h1 h2 h3 : Stable h1 h2 → Stable h2 h3 → Stable h1 h3.
Proof. intros H12 H23 v c H. apply H23, H12, H. Qed.

Lemma Path_stable h h' v ps t : Stable h h' → Path h v ps t → Path h' v ps t.
Proof.
  intros Hs HP. induction HP as [v|v c ps t Hc HP IH]; [constructor|].
  econstructor; [apply Hs; exact Hc|exact IH].
Qed.

Lemma Pair_Cdr_isPair h v c : Pair_Cdr h v = Done c → isPair v = true.
Proof. intros H. apply Pair_Cdr_inv in H as (p & Hp & _). eapply load_isPair, Hp. Qed.

Lemma Pair_From_isPair h v point : Pair_From h v = Done point → isPair v = true.
Proof. destruct v; simpl; congruence. Qed.

Lemma Path_head_isPair h v ps t : Path h v ps t → isPair t = true → isPair v = true.
Proof. intros [v'|v' c ps' t' Hc _] Ht; [exact Ht|eapply Pair_Cdr_isPair, Hc]. Qed.

Lemma Path_cons_isPair h v ps t : Path h v ps t → ps ≠ [] → isPair v = true.
Proof. intros [v'|v' c ps' t' Hc _] Hne; [congruence|eapply Pair_Cdr_isPair, Hc]. Qed.

(** One turn of the loop of [MapPairs]. *)
Lemma MapPairs_loop_unfold (fuel : nat) g idx pair h s :
  MapPairs_loop (S fuel) g idx pair h s =
  g idx pair h s ≫= λ '(h, s, err),
    match err with
    | Some err =>
        point ← Pair_From h pair ;
        if Point_Undefined point then Done (h, s, Some err)
        else Done (h, s, Some (Errorf (Point_String point +:+ ": " +:+ Error err)))
    | None =>
        cdr ← Pair_Cdr h pair ;
        if isPair cdr then MapPairs_loop fuel g (idx + 1) cdr h s
        else if isNil cdr then Done (h, s, None)
        else Done (h, s, Some ErrorInvalidList)
    end.
Proof. reflexivity. Qed.

(** A run of the loop rewires no chain when the callback rewires none. *)
Lemma MapPairs_loop_stable (fuel : nat) g idx pair h s h' s' err :
  keeps g → MapPairs_loop fuel g idx pair h s = Done (h', s', err) → Stable h h'.
Proof.
  intros Hk. revert idx pair h s.
  induction fuel as [|fuel IH]; intros idx pair h s H; [discriminate|].
  rewrite MapPairs_loop_unfold in H.
  apply bind_Done_inv in H as ([[h1 s1] e1] & Hg & H).
  pose proof (Hk _ _ _ _ _ _ _ Hg) as Hs1.
  destruct e1 as [e|].
  - apply bind_Done_inv in H as (point & _ & H).
    destruct (Point_Undefined point); injection H as <- <- <-; exact Hs1.
  - apply bind_Done_inv in H as (c & _ & H).
    destruct (isPair c).
    + eapply Stable_trans; [exact Hs1|eapply IH, H].
    + destruct (isNil c); injection H as <- <- <-; exact Hs1.
Qed.

(** Along a chain on which every call succeeds the loop makes exactly the
    calls of [visit], and then looks at the end of the chain. *)
Lemma MapPairs_loop_chain (fuel : nat) g idx v ps t h s h' s' :
  keeps g → Path h v ps t → ps ≠ [] → isPair t = false →
  (length ps ≤ fuel)%nat →
  visit g idx ps h s = Done (h', s', None) →
  MapPairs_loop fuel g idx v h s =
    Done (h', s', if isNil t then None else Some ErrorInvalidList).
Proof.
  intros Hk HP. revert fuel idx v h s HP.
  induction ps as [|p ps IH]; intros fuel idx v h s HP Hne Ht Hf Hv; [congruence|].
  inversion HP as [|v' c ps' t' Hc HP']; subst.
  destruct fuel as [|fuel]; [simpl in Hf; lia|].
  simpl in Hv. apply bind_Done_inv in Hv as ([[h1 s1] e1] & Hg & Hv).
  destruct e1 as [e|]; [discriminate|].
  pose proof (Hk _ _ _ _ _ _ _ Hg) as Hs1.
  rewrite MapPairs_loop_unfold, Hg. simpl. rewrite (Hs1 _ _ Hc). simpl.
  destruct ps as [|p' ps].
  - inversion HP'; subst. simpl in Hv. injection Hv as <- <-. rewrite Ht.
    destruct (isNil t); reflexivity.
  - rewrite (Path_cons_isPair _ _ _ _ HP') by congruence.
    apply IH; [eapply Path_stable; eassumption|congruence|exact Ht|simpl in *; lia|exact Hv].
Qed.

(** ** The loop of [MapPairs] and the walks *)

Lemma Walk_impl (R R' : Call (St := St)) idx p h s ps q h' s' :
  (∀ idx p h s r, R idx p h s r → R' idx p h s r) →
  Walk R idx p h s ps q h' s' → Walk R' idx p h s ps q h' s'.
Proof.
  intros HR HW. induction HW as [|idx p h s h1 s1 c ps q h' s' Hc Hcdr HW IH];
    [constructor|]. econstructor; [apply HR, Hc|exact Hcdr|exact IH].
Qed.

Lemma Walk_head_isPair (R : Call (St := St)) idx p h s ps q h' s' :
  Walk R idx p h s ps q h' s' → isPair q = true → isPair p = true.
Proof.
  intros [|idx' p' h0 s0 h1 s1 c ps' q' h2 s2 _ Hcdr _] Hq;
    [exact Hq|eapply Pair_Cdr_isPair, Hcdr].
Qed.

Lemma Walk_cons_isPair (R : Call (St := St)) idx p h s ps q h' s' :
  Walk R idx p h s ps q h' s' → ps ≠ [] → isPair p = true.
Proof.
  intros [|idx' p' h0 s0 h1 s1 c ps' q' h2 s2 _ Hcdr _] Hne;
    [congruence|eapply Pair_Cdr_isPair, Hcdr].
Qed.

(** Along a walk the loop makes the calls of the walk, and then looks at the
    value at which the walk arrives. *)
Lemma MapPairs_loop_walk (fuel : nat) g idx v ps t h s h' s' :
  Walk (calls_on_pair g) idx v h s ps t h' s' → ps ≠ [] → isPair t = false →
  (length ps ≤ fuel)%nat →
  MapPairs_loop fuel g idx v h s =
    Done (h', s', if isNil t then None else Some ErrorInvalidList).
Proof.
  intros HW. revert fuel.
  induction HW as [|idx p h s h1 s1 c ps q h' s' Hc Hcdr HW IH];
    intros fuel Hne Ht Hf; [congruence|].
  destruct fuel as [|fuel]; [simpl in Hf; lia|].
  unfold calls_on_pair in Hc.
  rewrite MapPairs_loop_unfold, Hc. cbn. rewrite Hcdr. cbn.
  destruct ps as [|p' ps].
  - inversion HW; subst. rewrite Ht. destruct (isNil q); reflexivity.
  - rewrite (Walk_cons_isPair _ _ _ _ _ _ _ _ _ HW) by congruence.
    apply IH; [congruence|exact Ht|simpl in *; lia].
Qed.

(** When the call at the pair [q] at which a walk arrives fails, the loop
    stops there, with the error prefixed by the location if there is one. *)
Lemma MapPairs_loop_walk_failure (fuel : nat) g idx v ps q h s h1 s1 h2 s2 err point :
  Walk (calls_on_pair g) idx v h s ps q h1 s1 →
  g (idx + Z.of_nat (length ps)) q h1 s1 = Done (h2, s2, Some err) →
  Pair_From h2 q = Done point →
  (length ps < fuel)%nat →
  MapPairs_loop fuel g idx v h s =
    Done (h2, s2, Some (if Point_Undefined point then err
                        else Errorf (Point_String point +:+ ": " +:+ Error err))).
Proof.
  intros HW. revert fuel.
  induction HW as [idx p h s|idx p h s ha sa c ps q h' s' Hc Hcdr HW IH];
    intros fuel Hg Hpt Hf.
  - destruct fuel as [|fuel]; [simpl in Hf; lia|].
    cbn [length] in Hg. rewrite Z.add_0_r in Hg.
    rewrite MapPairs_loop_unfold, Hg. cbn. rewrite Hpt. cbn.
    destruct (Point_Undefined point); reflexivity.
  - destruct fuel as [|fuel]; [simpl in Hf; lia|].
    unfold calls_on_pair in Hc.
    rewrite MapPairs_loop_unfold, Hc. cbn. rewrite Hcdr. cbn.
    rewrite (Walk_head_isPair _ _ _ _ _ _ _ _ _ HW (Pair_From_isPair _ _ _ Hpt)).
    apply IH; [|exact Hpt|simpl in *; lia].
    rewrite <- Hg. f_equal. cbn [length]. lia.
Qed.

(** Where the error of a completed run of the loop comes from. *)
Lemma MapPairs_loop_error (fuel : nat) g idx v h s h' s' e :
  MapPairs_loop fuel g idx v h s = Done (h', s', Some e) →
  (e = ErrorInvalidList
   ∧ ∃ ps t, Walk (calls_on_pair g) idx v h s ps t h' s' ∧ ps ≠ []
           ∧ isPair t = false ∧ isNil t = false)
  ∨ (∃ ps q h1 s1 err point,
       Walk (calls_on_pair g) idx v h s ps q h1 s1
       ∧ g (idx + Z.of_nat (length ps)) q h1 s1 = Done (h', s', Some err)
       ∧ Pair_From h' q = Done point
       ∧ e = (if Point_Undefined point then err
              else Errorf (Point_String point +:+ ": " +:+ Error err))).
Proof.
  revert idx v h s.
  induction fuel as [|fuel IH]; intros idx v h s H; [discriminate|].
  rewrite MapPairs_loop_unfold in H.
  apply bind_Done_inv in H as ([[h1 s1] e1] & Hg & H).
  destruct e1 as [err|].
  - apply bind_Done_inv in H as (point & Hpt & H). right.
    exists [], v, h, s, err, point. cbn [length]. rewrite Z.add_0_r.
    destruct (Point_Undefined point); injection H as <- <- <-;
      (split; [constructor|split; [exact Hg|split; [exact Hpt|reflexivity]]]).
  - apply bind_Done_inv in H as (c & Hc & H).
    destruct (isPair c) eqn:Hpc.
    + destruct (IH _ _ _ _ H) as
        [(-> & ps & t & HW & Hne & Ht & Hn)
        |(ps & q & ha & sa & err & point & HW & Hq & Hpt & ->)].
      * left. split; [reflexivity|]. exists (v :: ps), t.
        split; [econstructor; [exact Hg|exact Hc|exact HW]|].
        split; [congruence|]. split; assumption.
      * right. exists (v :: ps), q, ha, sa, err, point.
        split; [econstructor; [exact Hg|exact Hc|exact HW]|].
        split; [|split; [exact Hpt|reflexivity]].
        rewrite <- Hq. f_equal. cbn [length]. lia.
    + destruct (isNil c) eqn:Hnc; [discriminate|]. injection H as <- <- <-.
      left. split; [reflexivity|]. exists [v], c.
      split; [econstructor; [exact Hg|exact Hc|constructor]|].
      split; [congruence|]. split; assumption.
Qed.

(** Calls that never fail and rewire no chain walk along every path. *)
Lemma Walk_never_fails (R : Call (St := St)) idx v ps t h s :
  Call_keeps R → Call_never_fails R → Path h v ps t →
  ∃ h' s', Walk R idx v h s ps t h' s'.
Proof.
  intros Hk Hn HP. revert idx v h s HP.
  induction ps as [|p ps IH]; intros idx v h s HP.
  - inversion HP; subst. eexists _, _. constructor.
  - inversion HP as [|v' c ps' t' Hc HP']; subst.
    destruct (Pair_Cdr_inv _ _ _ Hc) as (pc & Hpc & _).
    destruct (Hn idx p h s pc Hpc) as (h1 & s1 & Hg).
    pose proof (Hk _ _ _ _ _ _ _ Hg) as Hs1.
    destruct (IH (idx + 1) c h1 s1 (Path_stable _ _ _ _ _ Hs1 HP')) as (h' & s' & HW).
    exists h', s'. econstructor; [exact Hg|apply Hs1, Hc|exact HW].
Qed.

(** The two laws for [MapPairs], with any callback. *)
Lemma MapPairs_invalid_list_law g :
  invalid_list_law (λ fuel, MapPairs fuel g) (calls_on_pair g).
Proof.
  assert (∀ (fuel : nat) v ps t h s h' s',
            Walk (calls_on_pair g) 0 v h s ps t h' s' → ps ≠ [] → isPair t = false →
            (length ps ≤ fuel)%nat →
            MapPairs fuel g v h s =
              Done (h', s', if isNil t then None else Some ErrorInvalidList)) as L4.
  { intros fuel v ps t h s h' s' HW Hne Ht Hf. unfold MapPairs.
    pose proof (Walk_cons_isPair _ _ _ _ _ _ _ _ _ HW Hne) as Hp.
    rewrite Hp, (isPair_not_nil _ Hp). cbn.
    apply (MapPairs_loop_walk fuel g 0 v ps t); assumption. }
  split; [|split; [|split; [|split]]].
  - reflexivity.
  - intros fuel v h s Hn Hp. unfold MapPairs. rewrite Hn, Hp. reflexivity.
  - intros fuel v ps h s Hk Hnf [HP Ht] Hf.
    destruct (Walk_never_fails _ 0 v ps Nil h s Hk Hnf HP) as (h' & s' & HW).
    exists h', s'. split; [exact HW|].
    destruct ps as [|p ps].
    + inversion HW; subst. reflexivity.
    + apply (L4 fuel v (p :: ps) Nil h s h' s' HW); [congruence|reflexivity|exact Hf].
  - exact L4.
  - intros fuel v h s h' s' H. unfold MapPairs in H.
    destruct (isNil v) eqn:Hn; [discriminate|].
    destruct (isPair v) eqn:Hp; cbn in H.
    + right.
      destruct (MapPairs_loop_error fuel g 0 v h s h' s' _ H) as
        [(_ & ps & t & HW & Hne & Ht & Hnt)
        |(ps & q & h1 & s1 & err & point & HW & Hq & Hpt & He)].
      * left. exists ps, t. auto.
      * right. exists ps, q, h1, s1, point.
        destruct (Point_Undefined point) eqn:Hu; [|discriminate He]. subst err.
        split; [exact HW|]. split; [exact Hq|]. split; [exact Hpt|reflexivity].
    + injection H as <- <-. left. auto.
Qed.

Lemma MapPairs_callback_failure_law g :
  callback_failure_law (λ fuel, MapPairs fuel g) (calls_on_pair g).
Proof.
  split.
  - intros fuel v ps q h s h1 s1 h2 s2 err point HW Hg Hpt Hf.
    pose proof (Walk_head_isPair _ _ _ _ _ _ _ _ _ HW (Pair_From_isPair _ _ _ Hpt)) as Hp.
    unfold MapPairs. rewrite Hp, (isPair_not_nil _ Hp). cbn.
    apply (MapPairs_loop_walk_failure fuel g 0 v ps q h s h1 s1); assumption.
  - intros fuel v h s h2 s2 e H He. unfold MapPairs in H.
    destruct (isNil v) eqn:Hn; [discriminate|].
    destruct (isPair v) eqn:Hp; cbn in H; [|congruence].
    destruct (MapPairs_loop_error fuel g 0 v h s h2 s2 _ H) as
      [(-> & _)|(ps & q & h1 & s1 & err & point & HW & Hq & Hpt & ->)]; [congruence|].
    exists ps, q, h1, s1, err, point. auto.
Qed.

(** The first revision of [Map] is the [Map] of the later revision. *)
Lemma Map_loop_MapPairs_loop (fuel : nat) f idx pair h s :
  Rev1.Map_loop fuel f idx pair h s = MapPairs_loop fuel (on_car f) idx pair h s.
Proof.
  revert idx pair h s. induction fuel as [|fuel IH]; intros idx pair h s; [reflexivity|].
  rewrite MapPairs_loop_unfold. simpl. unfold on_car.
  destruct (Pair_Car h pair) as [v| |]; simpl; try reflexivity.
  destruct (f idx v h s) as [[[h1 s1] [e|]]| |]; simpl; try reflexivity.
  destruct (Pair_Cdr h1 pair) as [c| |]; simpl; try reflexivity.
  destruct (isPair c); [apply IH|reflexivity].
Qed.

Lemma Map_Rev1_Rev2 (fuel : nat) f v h s : Rev1.Map fuel f v h s = Map fuel f v h s.
Proof.
  unfold Rev1.Map, Map, MapPairs.
  destruct (isNil v); [reflexivity|]. destruct (isPair v); simpl; [|reflexivity].
  apply Map_loop_MapPairs_loop.
Qed.

(** A callback on elements that rewires no chain, or never fails, gives a
    callback on pairs that does the same. *)
Lemma keeps_on_car f : keeps f → keeps (on_car f).
Proof.
  intros Hk idx p h s h' s' err H. unfold on_car in H.
  apply bind_Done_inv in H as (v & _ & H). eapply Hk, H.
Qed.

Lemma never_fails_on_car f :
  (∀ idx v h s, ∃ h' s', f idx v h s = Done (h', s', None)) → never_fails (on_car f).
Proof.
  intros Hf idx p h s pc Hpc. unfold on_car. rewrite (Pair_Car_load _ _ _ Hpc). simpl.
  apply Hf.
Qed.

(** [Map] calls the callback on the car that the pair has at the call. *)
Lemma calls_on_car_on_car f idx p h s r :
  calls_on_pair (on_car f) idx p h s r ↔ calls_on_car f idx p h s r.
Proof.
  unfold calls_on_pair, calls_on_car, on_car, Pair_Car. split.
  - intros H. apply bind_Done_inv in H as (e & He & H).
    apply bind_Done_inv in He as (pc & Hpc & [= <-]). eauto.
  - intros (pc & Hpc & H). rewrite Hpc. exact H.
Qed.

(** The laws only look at what a traversal returns and at what the calls
    return. *)
Lemma invalid_list_law_ext T T' (R R' : Call (St := St)) :
  (∀ fuel v h s, T fuel v h s = T' fuel v h s) →
  (∀ idx p h s r, R' idx p h s r ↔ R idx p h s r) →
  invalid_list_law T' R' → invalid_list_law T R.
Proof.
  intros Heq HR (L1 & L2 & L3 & L4 & L5).
  assert (∀ idx p h s ps q h' s',
            Walk R idx p h s ps q h' s' ↔ Walk R' idx p h s ps q h' s') as HW.
  { intros. split; apply Walk_impl; intros; apply HR; assumption. }
  split; [|split; [|split; [|split]]].
  - intros. rewrite Heq. apply L1.
  - intros. rewrite Heq. apply L2; assumption.
  - intros fuel v ps h s Hk Hn Hc Hf.
    destruct (L3 fuel v ps h s) as (h' & s' & Hw & HT); [| |exact Hc|exact Hf|].
    + intros idx p h0 s0 h1 s1 err H. eapply Hk, HR, H.
    + intros idx p h0 s0 pc Hpc. destruct (Hn idx p h0 s0 pc Hpc) as (h1 & s1 & H).
      exists h1, s1. apply HR, H.
    + exists h', s'. rewrite Heq. split; [apply HW, Hw|exact HT].
  - intros fuel v ps t h s h' s' Hw Hne Ht Hf. rewrite Heq.
    eapply L4; [apply HW, Hw|assumption..].
  - intros fuel v h s h' s' HT. rewrite Heq in HT.
    destruct (L5 _ _ _ _ _ _ HT) as
      [H|[(ps & t & Hw & H)|(ps & q & h1 & s1 & point & Hw & Hq & H)]].
    + left. exact H.
    + right. left. exists ps, t. split; [apply HW, Hw|exact H].
    + right. right. exists ps, q, h1, s1, point.
      split; [apply HW, Hw|]. split; [apply HR, Hq|exact H].
Qed.

Lemma callback_failure_law_ext T T' (R R' : Call (St := St)) :
  (∀ fuel v h s, T fuel v h s = T' fuel v h s) →
  (∀ idx p h s r, R' idx p h s r ↔ R idx p h s r) →
  callback_failure_law T' R' → callback_failure_law T R.
Proof.
  intros Heq HR [L1 L2].
  assert (∀ idx p h s ps q h' s',
            Walk R idx p h s ps q h' s' ↔ Walk R' idx p h s ps q h' s') as HW.
  { intros. split; apply Walk_impl; intros; apply HR; assumption. }
  split.
  - intros fuel v ps q h s h1 s1 h2 s2 err point Hw Hq Hpt Hf. rewrite Heq.
    eapply L1; [apply HW, Hw|apply HR, Hq|exact Hpt|exact Hf].
  - intros fuel v h s h2 s2 e HT He. rewrite Heq in HT.
    destruct (L2 _ _ _ _ _ _ _ HT He) as (ps & q & h1 & s1 & err & point & Hw & Hq & H).
    exists ps, q, h1, s1, err, point. split; [apply HW, Hw|]. split; [apply HR, Hq|exact H].
Qed.

(** C3 (amended). [MapPairs], and [Map] of either revision, return without
    error on the empty list, and [ErrorInvalidList] on a value that is neither
    the empty list nor a pair.  With any callback, whatever it does to the
    store: when the calls at the pairs, in order and with the indices from 0,
    return without error and the cdr read after the last call is not a pair,
    they return without error if it is the empty list and [ErrorInvalidList]
    otherwise.  On a proper list with a callback that never fails and rewires
    no chain these are the calls at every pair of the list.  They return
    [ErrorInvalidList] only on such an argument, at such an end of the calls,
    or when the callback itself returns it at a pair whose location is
    undefined.  [MapPairs] calls the callback on the pair, [Map] on the car
    that the pair has at the call. *)
Theorem C3_invalid_list f :
  invalid_list_law (λ fuel, MapPairs fuel f) (calls_on_pair f)
  ∧ invalid_list_law (λ fuel, Map fuel f) (calls_on_car f)
  ∧ invalid_list_law (λ fuel, Rev1.Map fuel f) (calls_on_car f).
Proof.
  split; [apply MapPairs_invalid_list_law|].
  pose proof (MapPairs_invalid_list_law (on_car f)) as H.
  split.
  - apply (invalid_list_law_ext _ (λ fuel, MapPairs fuel (on_car f)) _
             (calls_on_pair (on_car f))); [reflexivity| |exact H].
    intros. apply calls_on_car_on_car.
  - apply (invalid_list_law_ext _ (λ fuel, MapPairs fuel (on_car f)) _
             (calls_on_pair (on_car f))); [| |exact H].
    + intros. apply Map_Rev1_Rev2.
    + intros. apply calls_on_car_on_car.
Qed.

(** C4. With any callback, whatever it does to the store: when the call at a
    pair fails, after the calls at the pairs before it returned without
    error, the traversal returns the callback's error as it is if the
    location of the pair is undefined, and otherwise the error whose text is
    the location, a colon and a space, and the text of the callback's error;
    and a traversal returns an error other than [ErrorInvalidList] in this
    way only.  [MapPairs] calls the callback on the pair, [Map] of either
    revision on the car that the pair has at the call. *)
Theorem C4_callback_failure f :
  callback_failure_law (λ fuel, MapPairs fuel f) (calls_on_pair f)
  ∧ callback_failure_law (λ fuel, Map fuel f) (calls_on_car f)
  ∧ callback_failure_law (λ fuel, Rev1.Map fuel f) (calls_on_car f).
Proof.
  split; [apply MapPairs_callback_failure_law|].
  pose proof (MapPairs_callback_failure_law (on_car f)) as H.
  split.
  - apply (callback_failure_law_ext _ (λ fuel, MapPairs fuel (on_car f)) _
             (calls_on_pair (on_car f))); [reflexivity| |exact H].
    intros. apply calls_on_car_on_car.
  - apply (callback_failure_law_ext _ (λ fuel, MapPairs fuel (on_car f)) _
             (calls_on_pair (on_car f))); [| |exact H].
    + intros. apply Map_Rev1_Rev2.
    + intros. apply calls_on_car_on_car.
Qed.

End Traversal.

Section Printing.
Context `{Ext : Externals}.

Lemma append_assoc (a b c : string) : (a +:+ b) +:+ c = a +:+ (b +:+ c).
Proof.
  induction a as [|x a IH]; [reflexivity|].
  change (String x ((a +:+ b) +:+ c) = String x (a +:+ (b +:+ c))).
  rewrite IH. reflexivity.
Qed.

Lemma append_nil_r (a : string) : a +:+ "" = a.
Proof.
  induction a as [|x a IH]; [reflexivity|].
  change (String x (a +:+ "") = String x a).
  rewrite IH. reflexivity.
Qed.

(** One turn of the loop of [PlainPair.String]. *)
Lemma String_loop_unfold (fuel : nat) h i first :
  String_loop (S fuel) h i first =
  p ← load h i ;
  elem ← elem_String fuel h (car p) ;
  let sep := if first then "" else " " in
  if isPair (cdr p) then
    rest ← String_loop fuel h (cdr p) false ; Done (sep +:+ elem +:+ rest)
  else if isNil (cdr p) then Done (sep +:+ elem)
  else
    tail ← Sprintf_v fuel h (cdr p) ;
    Done (sep +:+ elem +:+ " . " +:+ tail).
Proof. reflexivity. Qed.

(** What the loop writes along a chain: the cars, separated by single spaces,
    and then nothing for a proper list, or the dot and the last cdr. *)
Lemma String_loop_chain (f0 fuel : nat) h v ps t ss suffix first :
  Path h v ps t → ps ≠ [] → isPair t = false →
  Forall2 (car_text f0 h) ps ss →
  (if isNil t then suffix = ""
   else ∃ tail, Sprintf_v f0 h t = Done tail ∧ suffix = " . " +:+ tail) →
  (f0 + length ps ≤ fuel)%nat →
  String_loop fuel h v first =
    Done ((if first then "" else " ") +:+ String.concat " " ss +:+ suffix).
Proof.
  intros HP. revert fuel v ss first HP.
  induction ps as [|p ps IH]; intros fuel v ss first HP Hne Ht Hss Hsuf Hf; [congruence|].
  inversion HP as [|v' c ps' t' Hc HP']; subst.
  inversion Hss as [|p' s ps' ss' (pc & Hpc & Hs) Hss']; subst.
  apply Pair_Cdr_inv in Hc as (pc' & Hpc' & <-).
  rewrite Hpc in Hpc'. injection Hpc' as <-.
  destruct fuel as [|fuel]; [simpl in Hf; lia|]. cbn [length] in Hf.
  rewrite String_loop_unfold, Hpc. simpl.
  rewrite (elem_String_mono f0 fuel _ _ _ ltac:(lia) Hs). simpl.
  destruct ps as [|p' ps].
  - inversion HP'; subst. inversion Hss'; subst. rewrite Ht. simpl.
    destruct (isNil (cdr pc)).
    + subst suffix. rewrite append_nil_r. reflexivity.
    + destruct Hsuf as (tail & Htail & ->).
      rewrite (Sprintf_v_atom fuel f0 _ _ Ht), Htail. reflexivity.
  - rewrite (Path_cons_isPair _ _ _ _ HP') by congruence.
    rewrite (IH fuel (cdr pc) ss' false HP'); [|congruence|exact Ht|exact Hss'|exact Hsuf|simpl in *; lia].
    simpl. inversion Hss'; subst. do 2 f_equal.
    change (String.concat " " (s :: ?y :: ?l)) with (s +:+ " " +:+ String.concat " " (y :: l)).
    rewrite !append_assoc. reflexivity.
Qed.

(** C5 (amended). A proper list is written as its elements between
    parentheses, separated by single spaces; a chain that ends in a value that
    is neither a pair nor the empty list is written with a dot before that
    value; the empty list itself is written ['()], and [nil] where it is an
    element. *)
Theorem C5_rendering (f0 fuel : nat) (h : Heap) (v : Value) (ps : list Value)
    (t : Value) (ss : list string) :
  Chain h v ps t → ps ≠ [] →
  Forall2 (car_text f0 h) ps ss →
  (f0 + length ps ≤ fuel)%nat →
  (isNil t = true →
     PlainPair_String fuel h v = Done ("(" +:+ String.concat " " ss +:+ ")")
     ∧ ToScheme fuel h v = Done ("(" +:+ String.concat " " ss +:+ ")"))
  ∧ (isNil t = false → ∀ tail, Sprintf_v f0 h t = Done tail →
     PlainPair_String fuel h v =
       Done ("(" +:+ String.concat " " ss +:+ " . " +:+ tail +:+ ")")
     ∧ ToScheme fuel h v =
       Done ("(" +:+ String.concat " " ss +:+ " . " +:+ tail +:+ ")"))
  ∧ ToScheme fuel h Nil = Done "'()"
  ∧ ToString fuel h Nil = Done "'()"
  ∧ elem_String fuel h Nil = Done "nil".
Proof.
  intros [HP Ht] Hne Hss Hf.
  pose proof (Path_cons_isPair _ _ _ _ HP Hne) as Hv.
  assert (∀ s, PlainPair_String fuel h v = Done s → ToScheme fuel h v = Done s) as HS.
  { intros s Hs. unfold ToScheme. rewrite (isPair_not_nil _ Hv).
    destruct v; try discriminate Hv; exact Hs. }
  split; [|split; [|repeat split]].
  - intros Hn.
    assert (PlainPair_String fuel h v = Done ("(" +:+ String.concat " " ss +:+ ")")) as E.
    { unfold PlainPair_String.
      rewrite (String_loop_chain f0 fuel h v ps t ss "" true HP Hne Ht Hss); [|rewrite Hn; reflexivity|exact Hf].
      simpl. rewrite append_nil_r. reflexivity. }
    split; [exact E|apply HS, E].
  - intros Hn tail Htail.
    assert (PlainPair_String fuel h v =
            Done ("(" +:+ String.concat " " ss +:+ " . " +:+ tail +:+ ")")) as E.
    { unfold PlainPair_String.
      rewrite (String_loop_chain f0 fuel h v ps t ss (" . " +:+ tail) true HP Hne Ht Hss);
        [|rewrite Hn; eauto|exact Hf].
      simpl. rewrite !append_assoc. reflexivity. }
    split; [exact E|apply HS, E].
Qed.

End Printing.

(** * Further properties of the list functions *)

Section ListFunctions.
Context `{Ext : Externals}.
Import Rev2.

Lemma Path_app (h : Heap) a ps b qs c :
  Path h a ps b → Path h b qs c → Path h a (ps ++ qs) c.
Proof.
  intros H1 H2. induction H1 as [v|v c' ps t Hc HP IH]; [exact H2|].
  simpl. econstructor; [exact Hc|apply IH, H2].
Qed.

Lemma Pair_Car_weaken (h h' : Heap) v a :
  h ⊆ h' → Pair_Car h v = Done a → Pair_Car h' v = Done a.
Proof.
  intros Hsub H. unfold Pair_Car in *.
  apply bind_Done_inv in H as (p & Hp & H). rewrite (load_weaken _ _ _ _ Hsub Hp). exact H.
Qed.

(** Allocation rewires no chain. *)
Lemma subseteq_Stable (h h' : Heap) : h ⊆ h' → Stable h h'.
Proof.
  intros Hsub v c H. unfold Pair_Cdr in *.
  apply bind_Done_inv in H as (p & Hp & H). rewrite (load_weaken _ _ _ _ Hsub Hp). exact H.
Qed.

Lemma Path_Pair_Car (h : Heap) v ps t :
  Path h v ps t → Forall (λ p, ∃ a, Pair_Car h p = Done a) ps.
Proof.
  intros HP. induction HP as [v|v c ps t Hc HP IH]; constructor; [|exact IH].
  apply Pair_Cdr_inv in Hc as (p & Hp & _). exists (car p). apply Pair_Car_load, Hp.
Qed.

(** [MapPairs] on a chain, of any length, on which every call succeeds. *)
Lemma MapPairs_chain {St} (fuel : nat) (g : Callback (St := St)) v ps t h s h' s' :
  keeps g → Chain h v ps t → (length ps ≤ fuel)%nat →
  visit g 0 ps h s = Done (h', s', None) →
  MapPairs fuel g v h s = Done (h', s', if isNil t then None else Some ErrorInvalidList).
Proof.
  intros Hk [HP Ht] Hf Hv. destruct ps as [|p ps].
  - inversion HP; subst. simpl in Hv. injection Hv as <- <-. unfold MapPairs.
    destruct (isNil t); [reflexivity|]. rewrite Ht. reflexivity.
  - assert (isPair v = true) as Hp by (eapply Path_cons_isPair; [exact HP|congruence]).
    unfold MapPairs. rewrite Hp, (isPair_not_nil _ Hp). simpl.
    apply (MapPairs_loop_chain fuel g 0 v (p :: ps) t); auto; congruence.
Qed.

(** A callback on elements that leaves the store alone and never fails: what
    [visit] makes of it along a path. *)
Lemma visit_on_car_pure {St} (step : Z → Value → St → St) idx v ps t es h s :
  Path h v ps t → Forall2 (λ p e, Pair_Car h p = Done e) ps es →
  visit (on_car (λ idx v h s, Done (h, step idx v s, None))) idx ps h s =
    Done (h, fold_left (λ s '(i, e), step i e s)
               (zip (map (λ n, idx + Z.of_nat n) (seq 0 (length es))) es) s, None).
Proof.
  intros HP Hes. revert idx v s HP. unfold on_car.
  induction Hes as [|p e ps es Hp Hes IH]; intros idx v s HP; [reflexivity|].
  inversion HP as [|v' c ps' t' Hc HP']; subst.
  cbn [visit]. rewrite Hp. cbn.
  rewrite (IH (idx + 1) c _ HP'). rewrite Z.add_0_r. do 3 f_equal.
  rewrite <- seq_shift, map_map.
  replace (map (λ x, idx + Z.of_nat (S x)) (seq 0 (length es)))
    with (map (λ n, idx + 1 + Z.of_nat n) (seq 0 (length es)))
    by (apply map_ext; intros n; lia).
  reflexivity.
Qed.

Lemma keeps_pure {St} (step : Z → Value → St → St) :
  keeps (λ idx v h s, Done (h, step idx v s, None)).
Proof. intros idx p h s h' s' err [= <- _ _]. apply Stable_refl. Qed.

Lemma Path_cars (h : Heap) v ps t :
  Path h v ps t → ∃ es, Forall2 (λ p e, Pair_Car h p = Done e) ps es.
Proof.
  intros HP. induction HP as [v|v c ps t Hc HP [es IH]]; [exists []; constructor|].
  apply Pair_Cdr_inv in Hc as (p & Hp & _).
  exists (car p :: es). constructor; [apply Pair_Car_load, Hp|exact IH].
Qed.

Lemma fold_count (A : Type) (l : list (Z * A)) (c : Z) :
  fold_left (λ s '(_, _), s + 1) l c = c + Z.of_nat (length l).
Proof.
  revert c. induction l as [|[i a] l IH]; intros c; simpl; [lia|].
  rewrite IH. lia.
Qed.

Lemma fold_append (A : Type) (l : list (Z * A)) (acc : list A) :
  fold_left (λ s '(_, e), (s ++ [e])%list) l acc = (acc ++ map snd l)%list.
Proof.
  revert acc. induction l as [|[i a] l IH]; intros acc; simpl; [rewrite app_nil_r; reflexivity|].
  rewrite IH, <- app_assoc. reflexivity.
Qed.

Lemma Forall2_length_eq {A B} (P : A → B → Prop) l k : Forall2 P l k → length l = length k.
Proof. induction 1; simpl; congruence. Qed.

(** [ListLength], in either revision, along a chain. *)
Lemma ListLength_chain (fuel : nat) h v ps t :
  Chain h v ps t → (length ps ≤ fuel)%nat →
  ListLength fuel v h =
    Done (if isNil t then (Z.of_nat (length ps), true) else (0, false)).
Proof.
  intros HC Hf. destruct (Path_cars _ _ _ _ (proj1 HC)) as [es Hes].
  unfold ListLength, Map.
  rewrite (MapPairs_chain fuel _ v ps t h 0 h
             (0 + Z.of_nat (length (zip (map (λ n, 0 + Z.of_nat n) (seq 0 (length es))) es))));
    [| apply keeps_on_car, (keeps_pure (λ _ _ s, s + 1)) | exact HC | exact Hf
     | rewrite (visit_on_car_pure (λ _ _ s, s + 1) 0 v ps t es h 0 (proj1 HC) Hes);
       rewrite (fold_count Value); reflexivity ].
  simpl. destruct (isNil t); [|reflexivity].
  rewrite length_zip, length_map, length_seq, Nat.min_id, (Forall2_length_eq _ _ _ Hes).
  reflexivity.
Qed.

Lemma ListLength_Rev1_Rev2 (fuel : nat) v h : Rev1.ListLength fuel v h = ListLength fuel v h.
Proof. unfold Rev1.ListLength, ListLength. rewrite Map_Rev1_Rev2. reflexivity. Qed.

Lemma visit_pairs idx (h : Heap) (ps acc : list Value) :
  visit (λ idx p h result, Done (h, (result ++ [p])%list, None)) idx ps h acc =
    Done (h, (acc ++ ps)%list, None).
Proof.
  revert idx acc. induction ps as [|p ps IH]; intros idx acc; simpl.
  - rewrite app_nil_r. reflexivity.
  - rewrite IH, <- app_assoc. reflexivity.
Qed.

(** On a circular chain the loop of [MapPairs] takes every turn it is given
    when the callback never fails. *)
Lemma MapPairs_loop_cycle {St} (g : Callback (St := St)) :
  keeps g → never_fails g →
  ∀ (fuel : nat) idx v ps h s,
    Path h v ps v → ps ≠ [] → MapPairs_loop fuel g idx v h s = OutOfFuel.
Proof.
  intros Hk Hn. induction fuel as [|fuel IH]; intros idx v ps h s HP Hne; [reflexivity|].
  inversion HP as [|v' c ps' t' Hc HP']; subst; [congruence|].
  destruct (Pair_Cdr_inv _ _ _ Hc) as (pc & Hpc & _).
  destruct (Hn idx v h s pc Hpc) as (h1 & s1 & Hg).
  pose proof (Hk _ _ _ _ _ _ _ Hg) as Hs1.
  rewrite MapPairs_loop_unfold, Hg. cbn. rewrite (Hs1 _ _ Hc). cbn.
  assert (Path h1 c (ps' ++ [v]) c) as HP1.
  { eapply Path_app; [eapply Path_stable; [exact Hs1|exact HP']|].
    econstructor; [apply Hs1, Hc|constructor]. }
  assert (isPair c = true) as ->.
  { eapply Path_cons_isPair; [exact HP1|]. destruct ps'; discriminate. }
  eapply IH; [exact HP1|]. destruct ps'; discriminate.
Qed.

Lemma MapPairs_cycle {St} (g : Callback (St := St)) (fuel : nat) v ps h s :
  keeps g → never_fails g → Path h v ps v → ps ≠ [] →
  MapPairs fuel g v h s = OutOfFuel.
Proof.
  intros Hk Hn HP Hne. unfold MapPairs.
  assert (isPair v = true) as Hp by (eapply Path_cons_isPair; eassumption).
  rewrite Hp, (isPair_not_nil _ Hp). simpl. eapply MapPairs_loop_cycle; eassumption.
Qed.

Lemma count_never_fails :
  never_fails (on_car (λ (idx : Z) (v : Value) (h : Heap) (count : Z), Done (h, count + 1, None))).
Proof. apply never_fails_on_car. intros. eauto. Qed.

Lemma count_keeps :
  keeps (on_car (λ (idx : Z) (v : Value) (h : Heap) (count : Z), Done (h, count + 1, None))).
Proof. apply keeps_on_car, (keeps_pure (λ _ _ s, s + 1)). Qed.

Lemma ListLength_cycle (fuel : nat) h v ps :
  Path h v ps v → ps ≠ [] → ListLength fuel v h = OutOfFuel.
Proof.
  intros HP Hne. unfold ListLength, Map.
  rewrite (MapPairs_cycle _ fuel v ps h 0 count_keeps count_never_fails HP Hne). reflexivity.
Qed.

(** X1. [ListLength], in both revisions, follows the cdr fields from its
    argument: when they lead through [n] pairs to the empty list it returns
    [n] and [true]; when they lead through pairs to a value that is neither a
    pair nor the empty list (so also on an argument that is itself such a
    value) it returns [0] and [false]. *)
Theorem X1_ListLength (fuel : nat) (h : Heap) (v : Value) (ps : list Value) (t : Value) :
  Chain h v ps t → (length ps ≤ fuel)%nat →
  Rev1.ListLength fuel v h =
    Done (if isNil t then (Z.of_nat (length ps), true) else (0, false))
  ∧ Rev2.ListLength fuel v h =
    Done (if isNil t then (Z.of_nat (length ps), true) else (0, false)).
Proof.
  intros HC Hf. rewrite ListLength_Rev1_Rev2. split; apply ListLength_chain; assumption.
Qed.

(** X2. [list?] never returns an error and leaves the store as it is: on a
    chain of pairs it returns the boolean that tells whether the chain ends in
    the empty list. *)
Theorem X2_list_p (fuel : nat) (h : Heap) (v : Value) (ps : list Value) (t : Value)
    (rest : list Value) :
  Chain h v ps t → (length ps ≤ fuel)%nat →
  Rev1.builtin_list_p fuel h (v :: rest) = Done (h, (VBoolean (isNil t), None)).
Proof.
  intros HC Hf. unfold Rev1.builtin_list_p. simpl.
  rewrite ListLength_Rev1_Rev2, (ListLength_chain fuel h v ps t HC Hf).
  destruct (isNil t); reflexivity.
Qed.

(** X3. [length] returns [NewNumber(0, n)] on a proper list of [n] pairs.  On
    a chain that ends in another value it renders its argument with the verb
    [%v] and returns the error [length: not a list: ] followed by that
    rendering: it returns this error when the rendering returns, and does not
    return when the rendering does not.  The store is left as it is. *)
Theorem X3_length `{NC : !NumberConstructor} (fuel : nat) (h : Heap) (v : Value)
    (ps : list Value) (t : Value) (rest : list Value) :
  Chain h v ps t → (length ps ≤ fuel)%nat →
  (isNil t = true →
     Rev1.builtin_length fuel h (v :: rest) =
       Done (h, (VNumber (NewNumber 0 (Z.of_nat (length ps))), None)))
  ∧ (isNil t = false →
     Rev1.builtin_length fuel h (v :: rest) =
       Sprintf_v fuel h v ≫= λ msg,
       Done (h, (Nil, Some (Errorf ("length: not a list: " +:+ msg))))).
Proof.
  intros HC Hf. unfold Rev1.builtin_length. simpl.
  rewrite ListLength_Rev1_Rev2, (ListLength_chain fuel h v ps t HC Hf).
  split; intros Ht; rewrite Ht; reflexivity.
Qed.

(** X4. On a proper list [ListPairs] returns its pairs and [ListValues] its
    elements, both in the order of the list and with [true]; on a chain that
    ends in a value other than the empty list both return the nil slice and
    [false]. *)
Theorem X4_ListPairs_ListValues (fuel : nat) (h : Heap) (v : Value)
    (ps es : list Value) (t : Value) :
  Chain h v ps t → Forall2 (λ p e, Pair_Car h p = Done e) ps es →
  (length ps ≤ fuel)%nat →
  ListPairs fuel v h = Done (if isNil t then (ps, true) else ([], false))
  ∧ ListValues fuel v h = Done (if isNil t then (es, true) else ([], false)).
Proof.
  intros HC Hes Hf. split.
  - unfold ListPairs.
    rewrite (MapPairs_chain fuel _ v ps t h [] h ([] ++ ps)%list);
      [| apply (keeps_pure (λ _ p s, (s ++ [p])%list)) | exact HC | exact Hf
       | apply visit_pairs ].
    simpl. destruct (isNil t); reflexivity.
  - unfold ListValues, Map.
    rewrite (MapPairs_chain fuel _ v ps t h [] h
               ([] ++ map snd (zip (map (λ n, 0 + Z.of_nat n) (seq 0 (length es))) es))%list);
      [| apply keeps_on_car, (keeps_pure (λ _ p s, (s ++ [p])%list)) | exact HC | exact Hf
       | rewrite (visit_on_car_pure (λ _ e s, (s ++ [e])%list) 0 v ps t es h [] (proj1 HC) Hes);
         rewrite (fold_append Value); reflexivity ].
    simpl. destruct (isNil t); [|reflexivity].
    rewrite snd_zip; [reflexivity|]. rewrite length_map, length_seq. lia.
Qed.

(** X5. The two revisions of [Map] agree: the later one, which hands
    [MapPairs] a closure that applies the callback to the car of each pair,
    returns what the loop of the first revision returns, for every callback,
    argument, store and state of the callback, when the [Location] of the
    first revision is read as the [From] of the later one; so do the two
    revisions of [ListLength]. *)
Theorem X5_revisions_agree {St} (f : Callback (St := St)) (fuel : nat) (v : Value)
    (h : Heap) (s : St) :
  Rev1.Map fuel f v h s = Rev2.Map fuel f v h s
  ∧ Rev1.ListLength fuel v h = Rev2.ListLength fuel v h.
Proof. split; [apply Map_Rev1_Rev2|apply ListLength_Rev1_Rev2]. Qed.

(** X6. On a circular list the traversals do not return: with a callback that
    never fails and rewires no chain the loop of [MapPairs] takes every turn
    it is given, whatever their number, and so do [ListLength] of both
    revisions and [list?]. *)
Theorem X6_circular_list {St} (g : Callback (St := St)) (fuel : nat) (h : Heap)
    (v : Value) (ps rest : list Value) (s : St) :
  Path h v ps v → ps ≠ [] →
  (keeps g → never_fails g → MapPairs fuel g v h s = OutOfFuel)
  ∧ Rev1.ListLength fuel v h = OutOfFuel
  ∧ Rev2.ListLength fuel v h = OutOfFuel
  ∧ Rev1.builtin_list_p fuel h (v :: rest) = OutOfFuel.
Proof.
  intros HP Hne. split; [|split; [|split]].
  - intros Hk Hn. eapply MapPairs_cycle; eassumption.
  - rewrite ListLength_Rev1_Rev2. eapply ListLength_cycle; eassumption.
  - eapply ListLength_cycle; eassumption.
  - unfold Rev1.builtin_list_p. simpl.
    rewrite ListLength_Rev1_Rev2, (ListLength_cycle fuel h v ps HP Hne). reflexivity.
Qed.

End ListFunctions.

(** * Builtins that allocate: [cons], [list], [reverse] *)

Section Construction.
Context `{Ext : Externals}.
Import Rev2.

Lemma NewPair_load (h h' : Heap) a b p :
  NewPair h a b = (h', p) →
  h ⊆ h' ∧ isPair p = true ∧ load h' p = Done (mkPlainPair a b)
  ∧ ∃ l, p = VPlainPair l ∧ h !! l = None.
Proof.
  intros H. apply NewPair_spec in H as (l & -> & Hl & ->).
  split; [apply insert_subseteq, Hl|]. split; [reflexivity|].
  split; [simpl; rewrite lookup_insert_eq; reflexivity|eauto].
Qed.

Lemma Forall2_Pair_Car_weaken (h h' : Heap) ps es :
  h ⊆ h' → Forall2 (λ p e, Pair_Car h p = Done e) ps es →
  Forall2 (λ p e, Pair_Car h' p = Done e) ps es.
Proof.
  intros Hsub H. induction H; constructor; [eapply Pair_Car_weaken; eassumption|assumption].
Qed.

Lemma lookup_None_weaken (h h' : Heap) (l : loc) : h ⊆ h' → h' !! l = None → h !! l = None.
Proof.
  intros Hsub H. destruct (h !! l) as [o|] eqn:E; [|reflexivity].
  rewrite (lookup_weaken _ _ _ _ E Hsub) in H. discriminate.
Qed.

Lemma Forall2_snoc {A B} (P : A → B → Prop) l k a b :
  Forall2 P l k → P a b → Forall2 P (l ++ [a]) (k ++ [b]).
Proof. intros H Hab. apply Forall2_app; [exact H|constructor; [exact Hab|constructor]]. Qed.

(** Consing the values [rargs], one after the other, on [result]: the new
    cells form a path to [result] that holds the values in reverse order. *)
Lemma list_loop_spec (rargs : list Value) (h : Heap) (result : Value) h' v :
  Rev1.list_loop rargs h result = (h', v) →
  h ⊆ h'
  ∧ ∃ ps, Path h' v ps result
      ∧ Forall2 (λ p a, Pair_Car h' p = Done a) ps (rev rargs)
      ∧ Forall (λ p, ∃ l, p = VPlainPair l ∧ h !! l = None) ps.
Proof.
  revert h result. induction rargs as [|a rargs IH]; intros h result H; cbn [Rev1.list_loop] in H.
  - injection H as <- <-. split; [reflexivity|]. exists []. repeat constructor.
  - destruct (NewPair h a result) as [h1 p1] eqn:E.
    destruct (NewPair_load _ _ _ _ _ E) as (Hsub1 & Hp1 & Hl1 & l1 & -> & Hfresh).
    destruct (IH _ _ H) as (Hsub & ps & HP & Hcars & Hnew).
    split; [etrans; eassumption|].
    pose proof (load_weaken _ _ _ _ Hsub Hl1) as Hl'.
    exists (ps ++ [VPlainPair l1])%list. split; [|split].
    + eapply Path_app; [exact HP|].
      econstructor; [apply (Pair_Cdr_load _ _ _ Hl')|constructor].
    + simpl. apply Forall2_snoc; [exact Hcars|apply (Pair_Car_load _ _ _ Hl')].
    + apply Forall_app. split.
      * eapply Forall_impl; [exact Hnew|]. intros p (l & -> & Hl).
        exists l. split; [reflexivity|eapply lookup_None_weaken; eassumption].
      * constructor; [eauto|constructor].
Qed.

Lemma reverse_step_NewPair idx v (h : Heap) result h1 p1 :
  NewPair h v result = (h1, p1) → Rev1.reverse_step idx v h result = Done (h1, p1, None).
Proof. intros E. unfold Rev1.reverse_step. rewrite E. reflexivity. Qed.

Lemma reverse_step_keeps : keeps (on_car Rev1.reverse_step).
Proof.
  apply keeps_on_car. intros idx v h s h' s' err H. unfold Rev1.reverse_step in H.
  destruct (NewPair h v s) as [h1 p1] eqn:E. injection H as <- <- <-.
  apply subseteq_Stable. apply (NewPair_load _ _ _ _ _ E).
Qed.

Lemma reverse_step_never_fails : never_fails (on_car Rev1.reverse_step).
Proof.
  apply never_fails_on_car. intros idx v h s. unfold Rev1.reverse_step.
  destruct (NewPair h v s) as [h1 p1]. eauto.
Qed.

Lemma visit_on_car_cons {St} (f : Callback (St := St)) idx p ps (h : Heap) s e :
  Pair_Car h p = Done e →
  visit (on_car f) idx (p :: ps) h s =
    f idx e h s ≫= λ '(h, s, err),
      match err with
      | Some err => Done (h, s, Some err)
      | None => visit (on_car f) (idx + 1) ps h s
      end.
Proof. intros H. cbn [visit]. unfold on_car. rewrite H. reflexivity. Qed.

(** The calls of the callback of [reverse] along a path. *)
Lemma visit_reverse_step (h : Heap) v ps t es idx r0 :
  Path h v ps t → Forall2 (λ p e, Pair_Car h p = Done e) ps es →
  ∃ h' r qs,
    visit (on_car Rev1.reverse_step) idx ps h r0 = Done (h', r, None)
    ∧ h ⊆ h' ∧ Path h' r qs r0
    ∧ Forall2 (λ p e, Pair_Car h' p = Done e) qs (rev es)
    ∧ Forall (λ p, ∃ l, p = VPlainPair l ∧ h !! l = None) qs.
Proof.
  intros HP Hes. revert h v idx r0 es HP Hes.
  induction ps as [|p ps IH]; intros h v idx r0 es HP Hes.
  - inversion Hes; subst. exists h, r0, []. simpl. repeat constructor. reflexivity.
  - inversion HP as [|v' c ps' t' Hc HP']; subst.
    inversion Hes as [|p' e ps'' es' Hp Hes']; subst.
    destruct (NewPair h e r0) as [h1 p1] eqn:E.
    destruct (NewPair_load _ _ _ _ _ E) as (Hsub1 & Hp1 & Hl1 & l1 & -> & Hfresh).
    destruct (IH h1 c (idx + 1) (VPlainPair l1) es'
                (Path_stable _ _ _ _ _ (subseteq_Stable _ _ Hsub1) HP')
                (Forall2_Pair_Car_weaken _ _ _ _ Hsub1 Hes'))
      as (h' & r & qs & Hv & Hsub & HPr & Hcars & Hnew).
    pose proof (load_weaken _ _ _ _ Hsub Hl1) as Hl'.
    exists h', r, (qs ++ [VPlainPair l1])%list. split; [|split; [|split; [|split]]].
    + rewrite (visit_on_car_cons _ _ _ _ _ _ _ Hp). rewrite (reverse_step_NewPair _ _ _ _ _ _ E).
      cbn. exact Hv.
    + etrans; eassumption.
    + eapply Path_app; [exact HPr|].
      econstructor; [apply (Pair_Cdr_load _ _ _ Hl')|constructor].
    + simpl. apply Forall2_snoc; [exact Hcars|apply (Pair_Car_load _ _ _ Hl')].
    + apply Forall_app. split.
      * eapply Forall_impl; [exact Hnew|]. intros q (l & -> & Hl).
        exists l. split; [reflexivity|eapply lookup_None_weaken; eassumption].
      * constructor; [eauto|constructor].
Qed.

(** X7. [list] returns a proper list of new cells that holds its arguments in
    their order, and leaves every object of the store as it is; without
    arguments it returns the empty list and allocates nothing. *)
Theorem X7_list (fuel : nat) (h : Heap) (args : list Value) :
  (∃ h' v ps,
     Rev1.builtin_list fuel h args = Done (h', (v, None))
     ∧ h ⊆ h' ∧ Chain h' v ps Nil
     ∧ Forall2 (λ p a, Pair_Car h' p = Done a) ps args
     ∧ Forall (λ p, ∃ l, p = VPlainPair l ∧ h !! l = None) ps)
  ∧ Rev1.builtin_list fuel h [] = Done (h, (Nil, None)).
Proof.
  split; [|reflexivity]. unfold Rev1.builtin_list.
  destruct (Rev1.list_loop (rev args) h Nil) as [h' v] eqn:E.
  destruct (list_loop_spec _ _ _ _ _ E) as (Hsub & ps & HP & Hcars & Hnew).
  rewrite rev_involutive in Hcars.
  exists h', v, ps. split; [reflexivity|]. split; [exact Hsub|].
  split; [split; [exact HP|reflexivity]|]. split; assumption.
Qed.

(** [reverse] on a chain of pairs. *)
Lemma reverse_chain (fuel : nat) (h : Heap) (v : Value) (ps es : list Value) (t : Value)
    (rest : list Value) :
  Chain h v ps t → Forall2 (λ p e, Pair_Car h p = Done e) ps es →
  (length ps ≤ fuel)%nat →
  (isNil t = true →
     ∃ h' r qs,
       Rev1.builtin_reverse fuel h (v :: rest) = Done (h', (r, None))
       ∧ h ⊆ h' ∧ Chain h' r qs Nil
       ∧ Forall2 (λ p e, Pair_Car h' p = Done e) qs (rev es)
       ∧ Forall (λ p, ∃ l, p = VPlainPair l ∧ h !! l = None) qs)
  ∧ (isNil t = false →
     ∃ h', Rev1.builtin_reverse fuel h (v :: rest) =
             Done (h', (Nil, Some (Errorf "reverse: invalid list")))
           ∧ h ⊆ h').
Proof.
  intros HC Hes Hf.
  destruct (visit_reverse_step h v ps t es 0 Nil (proj1 HC) Hes)
    as (h' & r & qs & Hv & Hsub & HPr & Hcars & Hnew).
  pose proof (MapPairs_chain fuel _ v ps t h Nil h' r reverse_step_keeps HC Hf Hv) as HM.
  unfold Rev1.builtin_reverse. simpl. rewrite Map_Rev1_Rev2. unfold Map. rewrite HM.
  split; intros Ht; rewrite Ht; simpl.
  - exists h', r, qs. split; [reflexivity|]. split; [exact Hsub|].
    split; [split; [exact HPr|reflexivity]|]. split; assumption.
  - exists h'. split; [reflexivity|exact Hsub].
Qed.

(** X8. [reverse] of a proper list returns a proper list of new cells that
    holds the elements in reverse order, and leaves every object of the store,
    so also its argument, as it is.  On a chain that ends in a value other
    than the empty list it returns the error [reverse: invalid list]. *)
Theorem X8_reverse (fuel : nat) (h : Heap) (v : Value) (ps es : list Value) (t : Value)
    (rest : list Value) :
  Chain h v ps t → Forall2 (λ p e, Pair_Car h p = Done e) ps es →
  (length ps ≤ fuel)%nat →
  (isNil t = true →
     ∃ h' r qs,
       Rev1.builtin_reverse fuel h (v :: rest) = Done (h', (r, None))
       ∧ h ⊆ h' ∧ Chain h' r qs Nil
       ∧ Forall2 (λ p e, Pair_Car h' p = Done e) qs (rev es)
       ∧ Forall (λ p, ∃ l, p = VPlainPair l ∧ h !! l = None) qs)
  ∧ (isNil t = false →
     ∃ h', Rev1.builtin_reverse fuel h (v :: rest) =
             Done (h', (Nil, Some (Errorf "reverse: invalid list")))
           ∧ h ⊆ h').
Proof. apply reverse_chain. Qed.

(** X9. [cons] returns a new pair and leaves every object of the store as it
    is; on that pair [pair?] is true, [car] returns the first argument of
    [cons] and [cdr] the second. *)
Theorem X9_cons_car_cdr (fuel fuel' : nat) (h : Heap) (a b : Value) (rest rest' : list Value) :
  ∃ h' p l,
    Rev1.builtin_cons fuel h (a :: b :: rest) = Done (h', (p, None))
    ∧ p = VPlainPair l ∧ h !! l = None ∧ h ⊆ h'
    ∧ Rev1.builtin_pair_p fuel' h' (p :: rest') = Done (h', (VBoolean true, None))
    ∧ Rev1.builtin_car fuel' h' (p :: rest') = Done (h', (a, None))
    ∧ Rev1.builtin_cdr fuel' h' (p :: rest') = Done (h', (b, None)).
Proof.
  change (Rev1.builtin_cons fuel h (a :: b :: rest))
    with (let '(h', p) := NewPair h a b in Done (h', (p, @None error))).
  destruct (NewPair h a b) as [h' p] eqn:E.
  destruct (NewPair_load _ _ _ _ _ E) as (Hsub & Hp & Hl & l & -> & Hfresh).
  exists h', (VPlainPair l), l. split; [reflexivity|]. split; [reflexivity|].
  split; [exact Hfresh|]. split; [exact Hsub|]. split; [reflexivity|].
  unfold Rev1.builtin_car, Rev1.builtin_cdr. cbn.
  change (match h' !! l with Some (OPlainPair p) => Done p | _ => Panic end)
    with (load h' (VPlainPair l)).
  rewrite Hl. split; reflexivity.
Qed.

(** X10. On a value that is not a pair, the empty list included, [pair?] is
    false and [car] and [cdr] return the error [car: not a pair: ] or
    [cdr: not a pair: ] followed by the rendering of the value, which is
    [<nil>] for the empty list; the store is left as it is. *)
Theorem X10_car_cdr_not_a_pair (fuel : nat) (h : Heap) (v : Value) (rest : list Value)
    (msg : string) :
  isPair v = false → Sprintf_v fuel h v = Done msg →
  Rev1.builtin_pair_p fuel h (v :: rest) = Done (h, (VBoolean false, None))
  ∧ Rev1.builtin_car fuel h (v :: rest) =
      Done (h, (Nil, Some (Errorf ("car: not a pair: " +:+ msg))))
  ∧ Rev1.builtin_cdr fuel h (v :: rest) =
      Done (h, (Nil, Some (Errorf ("cdr: not a pair: " +:+ msg))))
  ∧ (v = Nil → msg = "<nil>").
Proof.
  intros Hp Hmsg. unfold Rev1.builtin_pair_p, Rev1.builtin_car, Rev1.builtin_cdr.
  cbn. rewrite Hp. cbn. rewrite Hmsg. cbn.
  split; [reflexivity|]. split; [reflexivity|]. split; [reflexivity|].
  intros ->. simpl in Hmsg. congruence.
Qed.

(** X25. [NewLocationPair] returns a new pair that reads back what it was
    given, the two locations and the two fields, and leaves every object of
    the store as it is; a pair of [NewPair] has the zero [Point] as both
    locations. *)
Theorem X25_NewLocationPair (h : Heap) (f t : Point) (a b : Value) :
  (∃ h' p l,
     NewLocationPair h f t a b = (h', p)
     ∧ p = VLocationPair l ∧ h !! l = None ∧ h ⊆ h'
     ∧ Pair_From h' p = Done f ∧ Pair_To h' p = Done t
     ∧ Pair_Car h' p = Done a ∧ Pair_Cdr h' p = Done b)
  ∧ (∃ h' p,
     NewPair h a b = (h', p)
     ∧ Pair_From h' p = Done Point_zero ∧ Pair_To h' p = Done Point_zero).
Proof.
  split.
  - unfold NewLocationPair, alloc.
    assert (h !! fresh (dom h) = None) as Hfresh by (apply not_elem_of_dom, is_fresh).
    eexists _, _, (fresh (dom h)). split; [reflexivity|]. split; [reflexivity|].
    split; [exact Hfresh|]. split; [apply insert_subseteq, Hfresh|].
    unfold Pair_Car, Pair_Cdr. simpl. rewrite !lookup_insert_eq. repeat split.
  - destruct (NewPair h a b) as [h' p] eqn:E.
    destruct (NewPair_load _ _ _ _ _ E) as (_ & _ & _ & l & -> & _).
    exists h', (VPlainPair l). repeat split.
Qed.

End Construction.

(** * [list-tail] and [list-ref] at any index *)

Section Positions.
Context `{Ext : Externals}.
Import Rev1.

Lemma bind_Done {A B} (a : A) (k : A → Outcome B) : Done a ≫= k = k a.
Proof. reflexivity. Qed.

(** The loop stops at the pair that the index names. *)
Lemma advance_path (fuel : nat) h k i v ps t :
  Path h v ps t → (length ps ≤ fuel)%nat → i + Z.of_nat (length ps) = k →
  advance fuel h k i v = Done (inr (k, t)).
Proof.
  intros HP. revert fuel i.
  induction HP as [v|v c ps t Hc HP IH]; intros fuel i Hf Hk.
  - cbn [length] in Hk. rewrite advance_done by lia. do 3 f_equal. lia.
  - cbn [length] in Hf, Hk. destruct fuel as [|fuel]; [lia|].
    apply Pair_Cdr_inv in Hc as (p & Hp & <-).
    rewrite (advance_step _ _ _ _ _ p) by (lia || assumption).
    apply IH; lia.
Qed.

(** The loop is left through the [return] in its body when it meets a value
    that is neither a pair nor the empty list before the index is reached. *)
Lemma advance_improper (fuel : nat) h k i v ps t :
  Path h v ps t → isPair t = false → isNil t = false →
  (length ps < fuel)%nat → i + Z.of_nat (length ps) < k →
  advance fuel h k i v = Done (inl t).
Proof.
  intros HP Hp Hn. revert fuel i.
  induction HP as [v|v c ps t Hc HP IH]; intros fuel i Hf Hk.
  - cbn [length] in Hf, Hk. destruct fuel as [|fuel]; [lia|].
    assert ((i <? k) = true) as E by (apply Z.ltb_lt; lia).
    simpl. rewrite E, Hn. simpl. unfold Cdr. rewrite Hp. reflexivity.
  - cbn [length] in Hf, Hk. destruct fuel as [|fuel]; [lia|].
    apply Pair_Cdr_inv in Hc as (p & Hpc & <-).
    rewrite (advance_step _ _ _ _ _ p) by (lia || assumption).
    apply IH; [assumption|assumption|lia|lia].
Qed.

(** The two builtins at the index that a path counts. *)
Lemma list_tail_list_ref_at (fuel : nat) (h : Heap) (l : Value) (ps : list Value)
    (t : Value) (kn : Number) :
  Path h l ps t → Z.of_nat (length ps) = Number_Int64 kn → (length ps ≤ fuel)%nat →
  builtin_list_tail fuel h [l; VNumber kn] = Done (h, (t, None))
  ∧ (∀ p, load h t = Done p →
       builtin_list_ref fuel h [l; VNumber kn] = Done (h, (car p, None))).
Proof.
  intros HP Hk Hf. rewrite list_tail_unfold, list_ref_unfold.
  rewrite (advance_path fuel h _ 0 l ps t HP Hf) by lia. simpl.
  rewrite Z.ltb_irrefl. split; [reflexivity|].
  intros p Hp. rewrite (load_not_nil _ _ _ Hp), (Car_load _ _ _ Hp). reflexivity.
Qed.

(** The pairs before a position of a path are a path to the pair there. *)
Lemma Path_take (h : Heap) v ps t (i : nat) p :
  Path h v ps t → ps !! i = Some p → Path h v (take i ps) p.
Proof.
  intros HP. revert i. induction HP as [v|v c ps t Hc HP IH]; intros i Hi; [discriminate|].
  destruct i as [|i]; simpl in *.
  - injection Hi as <-. constructor.
  - econstructor; [exact Hc|apply IH, Hi].
Qed.

(** X11. With the index [k], [list-tail] returns what the cdr fields lead to
    after [k] pairs, whatever it is and whatever follows it, and [list-ref]
    returns the car of that value when it is a pair; neither changes the
    store. *)
Theorem X11_list_tail_list_ref_at (fuel : nat) (h : Heap) (l : Value) (ps : list Value)
    (t : Value) (kn : Number) :
  Path h l ps t → Z.of_nat (length ps) = Number_Int64 kn → (length ps ≤ fuel)%nat →
  builtin_list_tail fuel h [l; VNumber kn] = Done (h, (t, None))
  ∧ (∀ p, load h t = Done p →
       builtin_list_ref fuel h [l; VNumber kn] = Done (h, (car p, None))).
Proof. apply list_tail_list_ref_at. Qed.

(** [list-tail] beyond the end of a proper list. *)
Lemma list_tail_beyond (fuel : nat) (h : Heap) (l : Value) (ps : list Value)
    (kn : Number) :
  Chain h l ps Nil → Z.of_nat (length ps) < Number_Int64 kn → (length ps ≤ fuel)%nat →
  builtin_list_tail fuel h [l; VNumber kn] =
    Sprintf_v fuel h l ≫= λ msg,
    Done (h, (Nil, Some (Errorf ("list-tail: index " +:+ pretty (Number_Int64 kn) +:+
                                  " out of range for list " +:+ msg)))).
Proof.
  intros [HP _] Hk Hf. rewrite list_tail_unfold.
  rewrite (advance_to_end fuel h _ 0 l ps HP Hf) by lia.
  rewrite bind_Done. cbn beta iota.
  assert ((0 + Z.of_nat (length ps) <? Number_Int64 kn) = true) as ->
    by (apply Z.ltb_lt; lia).
  reflexivity.
Qed.

(** X12. On a proper list with fewer elements than the index, [list-tail]
    renders the list argument with the verb [%v] and returns the error whose
    text names the index and that rendering: it returns this error when the
    rendering returns, and does not return when the rendering does not. *)
Theorem X12_list_tail_out_of_range (fuel : nat) (h : Heap) (l : Value) (ps : list Value)
    (kn : Number) :
  Chain h l ps Nil → Z.of_nat (length ps) < Number_Int64 kn → (length ps ≤ fuel)%nat →
  builtin_list_tail fuel h [l; VNumber kn] =
    Sprintf_v fuel h l ≫= λ msg,
    Done (h, (Nil, Some (Errorf ("list-tail: index " +:+ pretty (Number_Int64 kn) +:+
                                  " out of range for list " +:+ msg)))).
Proof. apply list_tail_beyond. Qed.

(** X13. On a chain that ends in a value [t] that is neither a pair nor the
    empty list, [list-tail] with an index above the number of pairs, and
    [list-ref] with an index that is not below it, return the error
    [invalid list: ] with the rendering of [t], not of the list argument. *)
Theorem X13_improper_list (fuel : nat) (h : Heap) (l : Value) (ps : list Value)
    (t : Value) (kn : Number) (msg : string) :
  Chain h l ps t → isNil t = false → (length ps < fuel)%nat →
  Sprintf_v fuel h t = Done msg →
  (Z.of_nat (length ps) < Number_Int64 kn →
     builtin_list_tail fuel h [l; VNumber kn] =
       Done (h, (Nil, Some (Errorf ("list-tail: invalid list: " +:+ msg)))))
  ∧ (Z.of_nat (length ps) ≤ Number_Int64 kn →
     builtin_list_ref fuel h [l; VNumber kn] =
       Done (h, (Nil, Some (Errorf ("list-ref: invalid list: " +:+ msg))))).
Proof.
  intros [HP Hp] Hn Hf Hmsg. rewrite list_tail_unfold, list_ref_unfold. split; intros Hk.
  - rewrite (advance_improper fuel h _ 0 l ps t HP Hp Hn Hf) by lia. simpl.
    rewrite Hmsg. reflexivity.
  - destruct (Z.eq_dec (Z.of_nat (length ps)) (Number_Int64 kn)) as [Heq|Hne].
    + rewrite (advance_path fuel h _ 0 l ps t HP) by lia. simpl.
      rewrite Hn. unfold Car. rewrite Hp. simpl. rewrite Hmsg. reflexivity.
    + rewrite (advance_improper fuel h _ 0 l ps t HP Hp Hn Hf) by lia. simpl.
      rewrite Hmsg. reflexivity.
Qed.

(** X14. When the second argument is not a number, [list-tail] and
    [list-ref] do not look at the first argument: they render the second
    with the verb [%v] and return the error [invalid index: ] followed by
    that rendering; they return this error when the rendering returns, and do
    not return when it does not. *)
Theorem X14_invalid_index (fuel : nat) (h : Heap) (a0 a1 : Value) (rest : list Value) :
  asNumber a1 = None →
  builtin_list_tail fuel h (a0 :: a1 :: rest) =
    Sprintf_v fuel h a1 ≫= (λ msg,
    Done (h, (Nil, Some (Errorf ("list-tail: invalid index: " +:+ msg)))))
  ∧ builtin_list_ref fuel h (a0 :: a1 :: rest) =
    Sprintf_v fuel h a1 ≫= (λ msg,
    Done (h, (Nil, Some (Errorf ("list-ref: invalid index: " +:+ msg))))).
Proof.
  intros Hn. unfold builtin_list_tail, builtin_list_ref.
  change (arg (a0 :: a1 :: rest) 1) with (Done a1). rewrite !bind_Done.
  rewrite Hn. split; reflexivity.
Qed.

End Positions.

(** * Writes, circular lists and the helpers [Car] and [Cdr] *)

Section Writes.
Context `{Ext : Externals}.
Import Rev2.

(** A write through a pair changes the fields of no other pair. *)
Lemma store_load (h h' : Heap) p f v pc :
  store h p f = Done h' → load h v = Done pc →
  load h' v = Done pc ∨ load h' v = Done (f pc).
Proof.
  destruct p as [| | | | |l|l]; simpl; try discriminate.
  - destruct (h !! l) as [[| |]|] eqn:E; try discriminate. intros [= <-].
    destruct v as [| | | | |l'|l']; simpl; try discriminate.
    + destruct (decide (l' = l)) as [->|Hne].
      * rewrite E, lookup_insert_eq. intros [= <-]. right. reflexivity.
      * rewrite lookup_insert_ne by congruence. auto.
    + destruct (decide (l' = l)) as [->|Hne].
      * rewrite E. discriminate.
      * rewrite lookup_insert_ne by congruence. auto.
  - destruct (h !! l) as [[| |]|] eqn:E; try discriminate. intros [= <-].
    destruct v as [| | | | |l'|l']; simpl; try discriminate.
    + destruct (decide (l' = l)) as [->|Hne].
      * rewrite E. discriminate.
      * rewrite lookup_insert_ne by congruence. auto.
    + destruct (decide (l' = l)) as [->|Hne].
      * rewrite E, lookup_insert_eq. intros [= <-]. right. reflexivity.
      * rewrite lookup_insert_ne by congruence. auto.
Qed.

Lemma store_Stable (h h' : Heap) p f :
  store h p f = Done h' → (∀ q, cdr (f q) = cdr q) → Stable h h'.
Proof.
  intros Hs Hf v c Hc. apply Pair_Cdr_inv in Hc as (pc & Hpc & <-).
  destruct (store_load _ _ _ _ _ _ Hs Hpc) as [H|H];
    rewrite (Pair_Cdr_load _ _ _ H); [reflexivity|rewrite Hf; reflexivity].
Qed.

Lemma builtin_set_car_Stable (fuel : nat) (h : Heap) args h' r :
  Rev1.builtin_set_car fuel h args = Done (h', r) → Stable h h'.
Proof.
  unfold Rev1.builtin_set_car. intros H.
  apply bind_Done_inv in H as (a0 & _ & H). destruct (negb (isPair a0)).
  - apply bind_Done_inv in H as (msg & _ & H). injection H as <- _. apply Stable_refl.
  - apply bind_Done_inv in H as (a1 & _ & H).
    apply bind_Done_inv in H as ([h1 e] & Hs & H).
    unfold SetCar in Hs. apply bind_Done_inv in Hs as (h2 & Hs & [= <- <-]).
    injection H as <- _. eapply store_Stable; [exact Hs|reflexivity].
Qed.

(** The loop of [PlainPair.String] on a circular chain. *)
Lemma String_loop_cycle (fuel : nat) (h : Heap) v ps first s :
  Path h v ps v → ps ≠ [] → String_loop fuel h v first ≠ Done s.
Proof.
  revert v ps first s. induction fuel as [|fuel IH]; intros v ps first s HP Hne; [discriminate|].
  inversion HP as [|v' c ps' t' Hc HP']; subst; [congruence|].
  apply Pair_Cdr_inv in Hc as (pc & Hpc & <-).
  assert (Path h (cdr pc) (ps' ++ [v]) (cdr pc)) as HP1.
  { eapply Path_app; [exact HP'|].
    econstructor; [apply (Pair_Cdr_load _ _ _ Hpc)|constructor]. }
  assert (isPair (cdr pc) = true) as Hp.
  { eapply Path_cons_isPair; [exact HP1|]. destruct ps'; discriminate. }
  rewrite String_loop_unfold, Hpc. cbn. intros H.
  apply bind_Done_inv in H as (elem & _ & H). rewrite Hp in H.
  apply bind_Done_inv in H as (rest & Hrest & _).
  eapply IH; [exact HP1| |exact Hrest]. destruct ps'; discriminate.
Qed.

(** A list with a circular list as its first element is not rendered. *)
Lemma Sprintf_v_circular_car (fuel : nat) (h : Heap) l pc cs s :
  load h l = Done pc → Path h (car pc) cs (car pc) → cs ≠ [] →
  Sprintf_v fuel h l ≠ Done s.
Proof.
  intros Hl HP Hne.
  pose proof (Path_cons_isPair _ _ _ _ HP Hne) as Hc.
  assert (PlainPair_String fuel h l ≠ Done s) as HS.
  { unfold PlainPair_String. intros H. apply bind_Done_inv in H as (s' & H & _).
    destruct fuel as [|fuel]; [discriminate|].
    rewrite String_loop_unfold, Hl in H. cbn in H.
    apply bind_Done_inv in H as (elem & He & _).
    unfold elem_String in He. rewrite (isPair_not_nil _ Hc) in He.
    assert (Scheme fuel h (car pc) = PlainPair_String fuel h (car pc)) as E
      by (destruct (car pc); try discriminate Hc; reflexivity).
    rewrite E in He. unfold PlainPair_String in He.
    apply bind_Done_inv in He as (s1 & H1 & _).
    eapply String_loop_cycle; eassumption. }
  pose proof (load_isPair _ _ _ Hl) as Hp.
  destruct l; try discriminate Hp; exact HS.
Qed.

(** X15. A successful [set-car!] rewires no list: every chain of pairs of the
    store is the same chain afterwards, with the same end, so [ListLength]
    returns on it what it returned before. *)
Theorem X15_set_car_keeps_lists (fuel : nat) (h : Heap) (p obj : Value) (rest : list Value)
    (pc : PlainPair) :
  load h p = Done pc →
  ∃ h', Rev1.builtin_set_car fuel h (p :: obj :: rest) = Done (h', (Nil, None))
    ∧ ∀ v ps t, Chain h v ps t →
        Chain h' v ps t
        ∧ ∀ fuel' : nat, (length ps ≤ fuel')%nat →
            Rev1.ListLength fuel' v h' = Rev1.ListLength fuel' v h.
Proof.
  intros Hp. pose proof (load_isPair _ _ _ Hp) as Hpair.
  destruct (store_spec h p (λ q, mkPlainPair obj (cdr q)) pc Hp) as (h' & Hs & _).
  assert (Rev1.builtin_set_car fuel h (p :: obj :: rest) = Done (h', (Nil, None))) as Hset.
  { unfold Rev1.builtin_set_car, SetCar. simpl. rewrite Hpair. simpl. rewrite Hs. reflexivity. }
  exists h'. split; [exact Hset|]. intros v ps t [HP Ht].
  pose proof (builtin_set_car_Stable _ _ _ _ _ Hset) as Hst.
  assert (Chain h' v ps t) as HC' by (split; [eapply Path_stable; eassumption|exact Ht]).
  split; [exact HC'|]. intros fuel' Hf.
  rewrite !ListLength_Rev1_Rev2.
  rewrite (ListLength_chain fuel' h' v ps t HC' Hf).
  rewrite (ListLength_chain fuel' h v ps t (conj HP Ht) Hf). reflexivity.
Qed.

(** X16. The rendering of a circular list does not return: whatever the
    number of turns it is given, [PlainPair.String], and with it [Scheme],
    the verb [%v], [ToString] and [ToScheme], produce no text. *)
Theorem X16_circular_rendering (fuel : nat) (h : Heap) (v : Value) (ps : list Value)
    (s : string) :
  Path h v ps v → ps ≠ [] →
  PlainPair_String fuel h v ≠ Done s
  ∧ Scheme fuel h v ≠ Done s
  ∧ Sprintf_v fuel h v ≠ Done s
  ∧ ToString fuel h v ≠ Done s
  ∧ ToScheme fuel h v ≠ Done s.
Proof.
  intros HP Hne.
  assert (PlainPair_String fuel h v ≠ Done s) as HS.
  { unfold PlainPair_String. intros H. apply bind_Done_inv in H as (s' & H & _).
    eapply String_loop_cycle; eassumption. }
  pose proof (Path_cons_isPair _ _ _ _ HP Hne) as Hp.
  unfold ToString, ToScheme. rewrite (isPair_not_nil _ Hp).
  destruct v; try discriminate Hp; repeat split; exact HS.
Qed.

(** X17. [set-cdr!] with a pair as both arguments makes a circular list of
    one pair; on it [ListLength] and [list?] do not return. *)
Theorem X17_set_cdr_makes_cycle (fuel : nat) (h : Heap) (p : Value) (rest : list Value)
    (pc : PlainPair) :
  load h p = Done pc →
  ∃ h', Rev1.builtin_set_cdr fuel h (p :: p :: rest) = Done (h', (Nil, None))
    ∧ Path h' p [p] p
    ∧ ∀ fuel' : nat,
        Rev1.ListLength fuel' p h' = OutOfFuel
        ∧ Rev1.builtin_list_p fuel' h' [p] = OutOfFuel.
Proof.
  intros Hp. pose proof (load_isPair _ _ _ Hp) as Hpair.
  destruct (store_spec h p (λ q, mkPlainPair (car q) p) pc Hp) as (h' & Hs & Hl & _).
  exists h'. split.
  { unfold Rev1.builtin_set_cdr, SetCdr. simpl. rewrite Hpair. simpl. rewrite Hs. reflexivity. }
  assert (Path h' p [p] p) as HP.
  { econstructor; [apply (Pair_Cdr_load _ _ _ Hl)|constructor]. }
  split; [exact HP|]. intros fuel'.
  assert (Rev1.ListLength fuel' p h' = OutOfFuel) as HL.
  { rewrite ListLength_Rev1_Rev2. eapply ListLength_cycle; [exact HP|discriminate]. }
  split; [exact HL|]. unfold Rev1.builtin_list_p. simpl. rewrite HL. reflexivity.
Qed.

(** X18. The helpers [Car] and [Cdr] return the field and [true] on a pair
    when they are called with [true]; called with [false], or on a value that
    is no pair, they return their argument and [false].  So [Car(Cdr(v,
    true))] is the second element and [true] when [v] and its cdr are pairs,
    and the cdr of [v] and [false] when that cdr is no pair. *)
Theorem X18_Car_Cdr (h : Heap) (v : Value) (p : PlainPair) :
  load h v = Done p →
  Car h v true = Done (car p, true)
  ∧ Cdr h v true = Done (cdr p, true)
  ∧ (∀ q, load h (cdr p) = Done q →
       Cdr h v true ≫= (λ '(r, ok), Car h r ok) = Done (car q, true))
  ∧ (isPair (cdr p) = false →
       Cdr h v true ≫= (λ '(r, ok), Car h r ok) = Done (cdr p, false))
  ∧ (∀ w ok, ok = false ∨ isPair w = false →
       Car h w ok = Done (w, false) ∧ Cdr h w ok = Done (w, false)).
Proof.
  intros Hp. rewrite (Car_load _ _ _ Hp), (Cdr_load _ _ _ Hp).
  split; [reflexivity|]. split; [reflexivity|]. split; [|split].
  - intros q Hq. cbn. apply (Car_load _ _ _ Hq).
  - intros Hn. cbn. unfold Car. rewrite Hn. reflexivity.
  - intros w ok [->|Hw]; unfold Car, Cdr; [split; reflexivity|].
    rewrite Hw. destruct ok; split; reflexivity.
Qed.

(** X19. [Identifier.Equal] is an equivalence on identifiers: reflexive,
    symmetric and transitive, whatever the other fields hold; it is false on
    every value that is no identifier; and two identifiers are equal exactly
    when [Scheme] renders them the same. *)
Theorem X19_Identifier_Equal (fuel : nat) (h : Heap) (a b c : loc) (ia ib ic : Identifier) :
  loadIdentifier h a = Done ia → loadIdentifier h b = Done ib →
  loadIdentifier h c = Done ic →
  Identifier_Equal h a (VIdentifier a) = Done true
  ∧ Identifier_Equal h a (VIdentifier b) = Identifier_Equal h b (VIdentifier a)
  ∧ (Identifier_Equal h a (VIdentifier b) = Done true →
     Identifier_Equal h b (VIdentifier c) = Done true →
     Identifier_Equal h a (VIdentifier c) = Done true)
  ∧ (∀ o, (∀ l, o ≠ VIdentifier l) → Identifier_Equal h a o = Done false)
  ∧ (Identifier_Equal h a (VIdentifier b) = Done true ↔
     Scheme fuel h (VIdentifier a) = Scheme fuel h (VIdentifier b)).
Proof.
  intros Ha Hb Hc. unfold Identifier_Equal, Scheme, Scheme_with, Identifier_String.
  rewrite Ha, Hb, Hc. cbn. split; [|split; [|split; [|split]]].
  - rewrite bool_decide_eq_true_2; reflexivity.
  - f_equal. apply bool_decide_ext. split; congruence.
  - intros [= H1] [= H2]. apply bool_decide_eq_true_1 in H1, H2.
    rewrite bool_decide_eq_true_2; congruence.
  - intros o Ho. destruct o; try reflexivity. exfalso. eapply Ho. reflexivity.
  - split.
    + intros [= H1]. apply bool_decide_eq_true_1 in H1. congruence.
    + intros [= H1]. rewrite bool_decide_eq_true_2; [reflexivity|exact H1].
Qed.

(** X20. [Flags.String] depends on the two lowest bits only: it is the
    empty text, [defined], [const] or [defined const], with one space
    between the words and none around them. *)
Theorem X20_Flags_String (f : Flags) :
  Flags_String f =
    match Z.testbit f 0, Z.testbit f 1 with
    | false, false => ""
    | true, false => "defined"
    | false, true => "const"
    | true, true => "defined const"
    end.
Proof.
  unfold Flags_String, FlagDefined, FlagConst.
  change (Z.shiftl 1 0) with (Z.ones 1). change (Z.shiftl 1 1) with (2 ^ 1).
  assert (Z.land f (Z.ones 1) = Z.b2z (Z.testbit f 0)) as ->.
  { rewrite Z.land_ones by lia. symmetry. apply Z.bit0_mod. }
  assert (Z.land f (2 ^ 1) = if Z.testbit f 1 then 2 else 0) as ->.
  { apply Z.bits_inj'. intros n Hn. rewrite Z.land_spec, Z.pow2_bits_eqb by lia.
    destruct (Z.eqb_spec 1 n) as [<-|Hne].
    - rewrite andb_true_r. destruct (Z.testbit f 1); reflexivity.
    - rewrite andb_false_r. destruct (Z.testbit f 1); [|rewrite Z.bits_0; reflexivity].
      change 2 with (2 ^ 1). rewrite Z.pow2_bits_eqb by lia.
      symmetry. apply Z.eqb_neq. exact Hne. }
  destruct (Z.testbit f 0), (Z.testbit f 1); reflexivity.
Qed.

(** X21. A [PlainPair] has no location: [From] and [To] return the zero
    [Point] and [SetTo] changes nothing.  On a [LocationPair], [SetTo] sets
    the end location and leaves the start location, both fields and every
    other object as they were. *)
Theorem X21_locations (h : Heap) (l : loc) (lp : LocationPair) (p : Point) :
  h !! l = Some (OLocationPair lp) →
  (∃ h', Pair_SetTo h (VLocationPair l) p = Done h'
       ∧ Pair_To h' (VLocationPair l) = Done p
       ∧ Pair_From h' (VLocationPair l) = Done (from lp)
       ∧ load h' (VLocationPair l) = Done (plain lp)
       ∧ ∀ l', l' ≠ l → h' !! l' = h !! l')
  ∧ (∀ l', Pair_SetTo h (VPlainPair l') p = Done h
       ∧ Pair_From h (VPlainPair l') = Done Point_zero
       ∧ Pair_To h (VPlainPair l') = Done Point_zero).
Proof.
  intros Hl. split; [|intros l'; repeat split].
  simpl. rewrite Hl. eexists. split; [reflexivity|].
  rewrite !lookup_insert_eq. repeat split.
  intros l' Hne. apply lookup_insert_ne. congruence.
Qed.

(** X22. [PlainPair.Equal] is false on every argument that is no pair, and
    it does not compare the cdr fields when the car fields differ, whatever
    the function [Equal] that it calls would do with them. *)
Theorem X22_PlainPair_Equal (E : Value → Value → Outcome bool) (h : Heap)
    (pair o : Value) (p q : PlainPair) :
  load h pair = Done p → load h o = Done q →
  (E (car p) (car q) = Done false → PlainPair_Equal E h pair o = Done false)
  ∧ (E (car p) (car q) = Done true →
     PlainPair_Equal E h pair o = E (cdr p) (cdr q))
  ∧ (∀ w, isPair w = false → PlainPair_Equal E h pair w = Done false).
Proof.
  intros Hp Hq. unfold PlainPair_Equal. rewrite (load_isPair _ _ _ Hq), Hp, Hq. cbn.
  split; [|split].
  - intros ->. reflexivity.
  - intros ->. reflexivity.
  - intros w ->. reflexivity.
Qed.

End Writes.

(** * The builtins together *)

Section Together.
Context `{Ext : Externals}.
Import Rev1.

Lemma Pair_Car_inv (h : Heap) v a :
  Pair_Car h v = Done a → ∃ p, load h v = Done p ∧ car p = a.
Proof.
  unfold Pair_Car. intros H. apply bind_Done_inv in H as (p & Hp & [= <-]). eauto.
Qed.

(** What [list] returns. *)
Lemma builtin_list_spec (fuel : nat) (h : Heap) (args : list Value) :
  ∃ h' v ps,
    builtin_list fuel h args = Done (h', (v, None))
    ∧ h ⊆ h' ∧ Chain h' v ps Nil
    ∧ Forall2 (λ p a, Pair_Car h' p = Done a) ps args
    ∧ Forall (λ p, ∃ l, p = VPlainPair l ∧ h !! l = None) ps.
Proof.
  unfold builtin_list.
  destruct (list_loop (rev args) h Nil) as [h' v] eqn:E.
  destruct (list_loop_spec _ _ _ _ _ E) as (Hsub & ps & HP & Hcars & Hnew).
  rewrite rev_involutive in Hcars.
  exists h', v, ps. split; [reflexivity|]. split; [exact Hsub|].
  split; [split; [exact HP|reflexivity]|]. split; assumption.
Qed.

(** X23. The list that [list] makes of its arguments reads back: [length]
    returns their number, [list?] is true, [null?] is true exactly when there
    is no argument, [list-ref] with the index [i] returns the argument at
    [i], and [list-tail] with their number returns the empty list. *)
Theorem X23_list_reads_back `{NC : !NumberConstructor} (fuel fuel' : nat) (h : Heap)
    (args : list Value) :
  (length args ≤ fuel')%nat →
  ∃ h' v,
    builtin_list fuel h args = Done (h', (v, None))
    ∧ builtin_length fuel' h' [v] =
        Done (h', (VNumber (NewNumber 0 (Z.of_nat (length args))), None))
    ∧ builtin_list_p fuel' h' [v] = Done (h', (VBoolean true, None))
    ∧ builtin_null fuel' h' [v] = Done (h', (VBoolean (bool_decide (args = [])), None))
    ∧ (∀ (i : nat) a kn, args !! i = Some a → Number_Int64 kn = Z.of_nat i →
         builtin_list_ref fuel' h' [v; VNumber kn] = Done (h', (a, None)))
    ∧ (∀ kn, Number_Int64 kn = Z.of_nat (length args) →
         builtin_list_tail fuel' h' [v; VNumber kn] = Done (h', (Nil, None))).
Proof.
  intros Hf. destruct (builtin_list_spec fuel h args) as (h' & v & ps & Hl & _ & HC & Hcars & _).
  pose proof (Forall2_length_eq _ _ _ Hcars) as Hlen.
  assert (length ps ≤ fuel')%nat as Hf' by lia.
  pose proof (ListLength_chain fuel' h' v ps Nil HC Hf') as HL. simpl in HL.
  exists h', v. split; [exact Hl|]. split; [|split; [|split; [|split]]].
  - unfold builtin_length. simpl. rewrite ListLength_Rev1_Rev2, HL, Hlen. reflexivity.
  - unfold builtin_list_p. simpl. rewrite ListLength_Rev1_Rev2, HL. reflexivity.
  - unfold builtin_null. simpl. do 3 f_equal.
    destruct HC as [HP _]. destruct args as [|a args].
    + inversion Hcars; subst. inversion HP; subst. reflexivity.
    + inversion Hcars; subst.
      rewrite (isPair_not_nil v); [reflexivity|].
      eapply Path_cons_isPair; [exact HP|discriminate].
  - intros i a kn Hi Hk.
    destruct (Forall2_lookup_r _ _ _ _ _ Hcars Hi) as (p & Hp & Hcar).
    apply Pair_Car_inv in Hcar as (pc & Hpc & <-).
    pose proof (lookup_lt_Some _ _ _ Hp) as Hlt.
    apply (list_tail_list_ref_at fuel' h' v (take i ps) p kn).
    + apply (Path_take _ _ _ Nil); [apply HC|exact Hp].
    + rewrite length_take. lia.
    + rewrite length_take. lia.
    + exact Hpc.
  - intros kn Hk.
    apply (list_tail_list_ref_at fuel' h' v ps Nil kn); [apply HC|lia|lia].
Qed.

(** X24. [reverse] of the [reverse] of a proper list is a proper list with
    the elements in the order of the first list, made of new cells only:
    none of them was in the store before, nor after the first [reverse].  The
    first list is still in the store as it was, and when it is not empty the
    result is another pair. *)
Theorem X24_reverse_twice (fuel : nat) (h : Heap) (v : Value) (ps es : list Value) :
  Chain h v ps Nil → Forall2 (λ p e, Pair_Car h p = Done e) ps es →
  (length ps ≤ fuel)%nat →
  ∃ h1 r h2 r2 qs,
    builtin_reverse fuel h [v] = Done (h1, (r, None))
    ∧ builtin_reverse fuel h1 [r] = Done (h2, (r2, None))
    ∧ h ⊆ h2 ∧ Chain h2 r2 qs Nil
    ∧ Forall2 (λ p e, Pair_Car h2 p = Done e) qs es
    ∧ Forall (λ p, ∃ l, p = VPlainPair l ∧ h !! l = None ∧ h1 !! l = None) qs
    ∧ length qs = length ps
    ∧ (ps ≠ [] → r2 ≠ v).
Proof.
  intros HC Hes Hf.
  destruct (proj1 (reverse_chain fuel h v ps es Nil [] HC Hes Hf) eq_refl)
    as (h1 & r & qs1 & Hr1 & Hsub1 & HC1 & Hcars1 & Hnew1).
  assert (length qs1 = length ps) as Hlen1.
  { rewrite (Forall2_length_eq _ _ _ Hcars1), length_rev,
            <- (Forall2_length_eq _ _ _ Hes). reflexivity. }
  assert (length qs1 ≤ fuel)%nat as Hf1 by lia.
  destruct (proj1 (reverse_chain fuel h1 r qs1 (rev es) Nil [] HC1 Hcars1 Hf1) eq_refl)
    as (h2 & r2 & qs & Hr2 & Hsub2 & HC2 & Hcars2 & Hnew2).
  rewrite rev_involutive in Hcars2.
  assert (Forall (λ p, ∃ l, p = VPlainPair l ∧ h !! l = None ∧ h1 !! l = None) qs) as Hnew.
  { eapply Forall_impl; [exact Hnew2|]. intros p (l & -> & Hl).
    exists l. split; [reflexivity|]. split; [|exact Hl].
    eapply lookup_None_weaken; eassumption. }
  exists h1, r, h2, r2, qs. split; [exact Hr1|]. split; [exact Hr2|].
  split; [etrans; eassumption|]. split; [exact HC2|]. split; [exact Hcars2|].
  split; [exact Hnew|].
  split.
  { rewrite (Forall2_length_eq _ _ _ Hcars2), <- (Forall2_length_eq _ _ _ Hes). reflexivity. }
  intros Hne ->.
  destruct HC as [HP _]. destruct HC2 as [HP2 _].
  inversion HP as [|v' c ps' t' Hc HP']; subst; [congruence|].
  apply Pair_Cdr_inv in Hc as (pc & Hpc & _).
  inversion HP2 as [|v'' c2 qs' t'' Hc2 HP2']; subst.
  - discriminate Hpc.
  - inversion Hnew as [|x xs (l & -> & Hnone & _) _]; subst.
    simpl in Hpc. rewrite Hnone in Hpc. discriminate.
Qed.

End Together.

(** * The properties on the sample stores *)

Section Samples.
Import Sample Rev1 Rev2.
#[local] Existing Instance ext.

Lemma h123_l123 : load h123 l123 = Done (mkPlainPair (num 1) l23).
Proof. vm_compute. reflexivity. Qed.

Lemma h123_l23 : load h123 l23 = Done (mkPlainPair (num 2) l3).
Proof. vm_compute. reflexivity. Qed.

Lemma h123_l3 : load h123 l3 = Done (mkPlainPair (num 3) Nil).
Proof. vm_compute. reflexivity. Qed.

Lemma h123_chain : Chain h123 l123 [l123; l23; l3] Nil.
Proof.
  split; [|reflexivity].
  apply (Path_step _ _ l23); [vm_compute; reflexivity|].
  apply (Path_step _ _ l3); [vm_compute; reflexivity|].
  apply (Path_step _ _ Nil); [vm_compute; reflexivity|].
  apply Path_nil.
Qed.

Lemma h123_text : Sprintf_v 3 h123 l123 = Done "(1 2 3)".
Proof. vm_compute. reflexivity. Qed.

Lemma hdot_chain : Chain hdot ldot [ldot; ldot2] (num 3).
Proof.
  split; [|reflexivity].
  apply (Path_step _ _ ldot2); [vm_compute; reflexivity|].
  apply (Path_step _ _ (num 3)); [vm_compute; reflexivity|].
  apply Path_nil.
Qed.

Lemma record_calls_keeps : keeps record_calls.
Proof. intros idx p h s h' s' err [= <- _ _]. intros v c H. exact H. Qed.

Lemma always_fails_keeps err : keeps (always_fails err).
Proof. intros idx p h s h' s' e [= <- _ _]. intros v c H. exact H. Qed.

Lemma C1_witness :
  builtin_list_tail 3%nat h123 [l123; num 4] =
    Done (h123, (Nil, Some (Errorf "list-tail: index 4 out of range for list (1 2 3)")))
  ∧ builtin_list_ref 3%nat h123 [l123; num 3] =
    Done (h123, (Nil, Some (Errorf "list-ref: index 3 out of range for list (1 2 3)")))
  ∧ builtin_list_ref 3%nat h123 [l123; num 2] = Done (h123, (num 3, None)).
Proof.
  split; [|split].
  - etransitivity;
      [exact (proj2 (proj2 (proj2 (proj2
         (C1_three_element_list 3 h123 l123 l23 l3 (num 1) (num 2) (num 3) (4 : Z)
            h123_l123 h123_l23 h123_l3 (le_n 3))))) eq_refl)|].
    rewrite h123_text. reflexivity.
  - etransitivity;
      [exact (proj2 (proj1 (proj2 (proj2 (proj2
         (C1_three_element_list 3 h123 l123 l23 l3 (num 1) (num 2) (num 3) (3 : Z)
            h123_l123 h123_l23 h123_l3 (le_n 3))))) eq_refl))|].
    rewrite h123_text. reflexivity.
  - exact (proj2 (proj1 (proj2 (proj2
         (C1_three_element_list 3 h123 l123 l23 l3 (num 1) (num 2) (num 3) (2 : Z)
            h123_l123 h123_l23 h123_l3 (le_n 3)))) eq_refl)).
Defined.

Lemma C2_witness :
  builtin_list_ref 3%nat h123 [l123; num 3] =
    Done (h123, (Nil, Some (Errorf "list-ref: index 3 out of range for list (1 2 3)"))).
Proof.
  refine (proj1 (C2_list_ref_out_of_range 3 h123 l123 [l123; l23; l3] (3 : Z) "(1 2 3)"
                   h123_chain _ _ h123_text)).
  - right. simpl. lia.
  - simpl. lia.
Defined.

(** The text of the error of [list-ref] at index 3 of [(1 2 3)] does not hold
    the tail at which the traversal stopped, the empty list, in either of
    its renderings; it holds the list. *)
Lemma C2_counterexample :
  ∃ msg tail,
    builtin_list_ref 3%nat h123 [l123; num 3] = Done (h123, (Nil, Some (Errorf msg)))
    ∧ advance 3 h123 3 0 l123 = Done (inr (3, tail))
    ∧ Sprintf_v 3 h123 tail = Done "<nil>" ∧ contains "<nil>" msg = false
    ∧ ToScheme 3 h123 tail = Done "'()" ∧ contains "'()" msg = false
    ∧ contains "()" msg = false
    ∧ contains "(1 2 3)" msg = true.
Proof.
  exists "list-ref: index 3 out of range for list (1 2 3)", Nil.
  repeat split; vm_compute; reflexivity.
Qed.

Lemma hcut_cut : cut (num 9) 0 l123 h123 tt = Done (hcut, tt, None).
Proof. vm_compute. reflexivity. Qed.

Lemma hcut_cdr : Pair_Cdr hcut l123 = Done (num 9).
Proof. vm_compute. reflexivity. Qed.

(** [MapPairs] on [(1 2 3)]: with a callback that records its calls, and with
    a callback that sets the cdr of its pair to [9]. *)
Lemma C3_witness :
  MapPairs 3 record_calls l123 h123 [] =
    Done (h123, [(0, l123); (1, l23); (2, l3)], None)
  ∧ MapPairs 1 (cut (num 9)) l123 h123 tt = Done (hcut, tt, Some ErrorInvalidList).
Proof.
  split.
  - destruct (proj1 (C3_invalid_list record_calls)) as (_ & _ & _ & L4 & _).
    refine (L4 3%nat l123 [l123; l23; l3] Nil h123 [] h123 _ _ _ eq_refl (le_n 3));
      [|discriminate].
    apply (Walk_step _ _ _ _ _ h123 [(0, l123)] l23); [reflexivity|vm_compute; reflexivity|].
    apply (Walk_step _ _ _ _ _ h123 [(0, l123); (1, l23)] l3);
      [reflexivity|vm_compute; reflexivity|].
    apply (Walk_step _ _ _ _ _ h123 [(0, l123); (1, l23); (2, l3)] Nil);
      [reflexivity|vm_compute; reflexivity|].
    apply Walk_nil.
  - destruct (proj1 (C3_invalid_list (cut (num 9)))) as (_ & _ & _ & L4 & _).
    refine (L4 1%nat l123 [l123] (num 9) h123 tt hcut tt _ _ eq_refl (le_n 1));
      [|discriminate].
    apply (Walk_step _ _ _ _ _ hcut tt (num 9)); [exact hcut_cut|exact hcut_cdr|].
    apply Walk_nil.
Defined.

(** On the proper list [(1 2 3)] a callback that itself fails with
    [ErrorInvalidList] makes [MapPairs] return [ErrorInvalidList]. *)
Lemma C3_counterexample :
  MapPairs 3 (always_fails ErrorInvalidList) l123 h123 tt =
    Done (h123, tt, Some ErrorInvalidList)
  ∧ isPair l123 = true
  ∧ Chain h123 l123 [l123; l23; l3] Nil.
Proof.
  split; [vm_compute; reflexivity|]. split; [reflexivity|]. exact h123_chain.
Qed.

Lemma hloc2_lq1 : load hloc2 lq1 = Done (mkPlainPair (num 1) lq2).
Proof. vm_compute. reflexivity. Qed.

Lemma hloc2_lq2 : load hloc2 lq2 = Done (mkPlainPair (num 2) Nil).
Proof. vm_compute. reflexivity. Qed.

Lemma hloc2_from : Pair_From hloc2 lq2 = Done 8.
Proof. vm_compute. reflexivity. Qed.

(** A callback that fails on the element [2]: at the second pair of [(1 2)],
    read at line 8, and at the second pair of [(1 2 3)], without location. *)
Lemma C4_witness :
  Rev2.Map 2 (fails_on 2 (Errorf "boom")) lq1 hloc2 tt =
    Done (hloc2, tt, Some (Errorf "8: boom"))
  ∧ Rev1.Map 2 (fails_on 2 (Errorf "boom")) l123 h123 tt =
    Done (h123, tt, Some (Errorf "boom"))
  ∧ MapPairs 1 (always_fails (Errorf "boom")) lloc hloc tt =
    Done (hloc, tt, Some (Errorf "7: boom")).
Proof.
  destruct (C4_callback_failure (fails_on 2 (Errorf "boom"))) as (_ & [L2 _] & [L1 _]).
  split; [|split].
  - refine (L2 2%nat lq1 [lq1] lq2 hloc2 tt hloc2 tt hloc2 tt (Errorf "boom") (8 : Z)
              _ _ hloc2_from (le_n 2)).
    + apply (Walk_step _ _ _ _ _ hloc2 tt lq2);
        [exists (mkPlainPair (num 1) lq2); split; [exact hloc2_lq1|reflexivity]
        |exact (Pair_Cdr_load _ _ _ hloc2_lq1)|apply Walk_nil].
    + exists (mkPlainPair (num 2) Nil). split; [exact hloc2_lq2|reflexivity].
  - refine (L1 2%nat l123 [l123] l23 h123 tt h123 tt h123 tt (Errorf "boom") (0 : Z)
              _ _ eq_refl (le_n 2)).
    + apply (Walk_step _ _ _ _ _ h123 tt l23);
        [exists (mkPlainPair (num 1) l23); split; [exact h123_l123|reflexivity]
        |exact (Pair_Cdr_load _ _ _ h123_l123)|apply Walk_nil].
    + exists (mkPlainPair (num 2) l3). split; [exact h123_l23|reflexivity].
  - refine (proj1 (proj1 (C4_callback_failure (always_fails (Errorf "boom"))))
              1%nat lloc [] lloc hloc tt hloc tt hloc tt (Errorf "boom") (7 : Z)
              (Walk_nil _ _ _ _ _) eq_refl _ (le_n 1)).
    vm_compute. reflexivity.
Defined.

Lemma C5_witness :
  PlainPair_String 3 h123 l123 = Done "(1 2 3)"
  ∧ PlainPair_String 2 hdot ldot = Done "(1 2 . 3)".
Proof.
  split.
  - refine (proj1 (proj1 (C5_rendering 0 3 h123 l123 [l123; l23; l3]
                            Nil ["1"; "2"; "3"] h123_chain _ _ (le_n 3)) eq_refl)).
    + discriminate.
    + constructor; [exists (mkPlainPair (num 1) l23); split; vm_compute; reflexivity|].
      constructor; [exists (mkPlainPair (num 2) l3); split; vm_compute; reflexivity|].
      constructor; [exists (mkPlainPair (num 3) Nil); split; vm_compute; reflexivity|].
      constructor.
  - refine (proj1 (proj1 (proj2 (C5_rendering 0 2 hdot ldot [ldot; ldot2]
                            (num 3) ["1"; "2"] hdot_chain _ _ (le_n 2))) eq_refl "3" eq_refl)).
    + discriminate.
    + constructor; [exists (mkPlainPair (num 1) ldot2); split; vm_compute; reflexivity|].
      constructor; [exists (mkPlainPair (num 2) (num 3)); split; vm_compute; reflexivity|].
      constructor.
Defined.

(** [ToScheme] of the empty list is not [()]. *)
Lemma C5_counterexample : ToScheme 0 ∅ Nil = Done "'()" ∧ ToScheme 0 ∅ Nil ≠ Done "()".
Proof. split; [reflexivity|discriminate]. Qed.

Lemma C6_witness :
  ∃ h', builtin_set_car 0%nat h123 [l123; num 42] = Done (h', (Nil, None))
      ∧ builtin_null 0%nat h' [Nil] = Done (h', (VBoolean true, None)).
Proof.
  exact (proj1 (C6_set_returns_empty_list 0 h123 l123 (num 42)
                  (mkPlainPair (num 1) l23) h123_l123)).
Defined.

(** [set-car!] on [(1 2 3)] succeeds and does not return a value that is
    distinct from the empty list and on which [null?] is false. *)
Lemma C6_counterexample :
  ¬ (∀ h' v, builtin_set_car 0%nat h123 [l123; num 42] = Done (h', (v, None)) →
       v ≠ Nil ∧ builtin_null 0%nat h' [v] = Done (h', (VBoolean false, None))).
Proof.
  intros H.
  assert (builtin_set_car 0%nat h123 [l123; num 42] =
          Done (<[3%positive := OPlainPair (mkPlainPair (num 42) l23)]> h123, (Nil, None)))
    as E by (vm_compute; reflexivity).
  destruct (H _ _ E) as [Hv _]. congruence.
Qed.

Lemma C7_witness :
  (builtin_set_cdr 0%nat h123 [num 5; num 1] =
     Done (h123, (Nil, Some (Errorf "set-cdr!: not a pair: 5"))))
  ∧ ∃ h', builtin_set_car 0%nat h123 [l123; num 42] = Done (h', (Nil, None))
        ∧ load h' l123 = Done (mkPlainPair (num 42) l23)
        ∧ h' !! 2%positive = h123 !! 2%positive.
Proof.
  split.
  - exact (proj2 (proj1 (C7_set_car_set_cdr 0 h123 [num 5; num 1] (num 5) eq_refl)
                    eq_refl "5" eq_refl)).
  - destruct (proj1 (proj2 (C7_set_car_set_cdr 0 h123 [l123; num 42] l123 eq_refl)
                      (num 42) (mkPlainPair (num 1) l23) eq_refl h123_l123))
      as (h' & Hs & Hl & _ & _ & Hf).
    exists h'. split; [exact Hs|]. split; [exact Hl|]. apply Hf. discriminate.
Defined.

Lemma hfoo_foo1 : hfoo !! foo1 = Some (OIdentifier foo).
Proof. vm_compute. reflexivity. Qed.

Lemma hfoo_foo2 : hfoo !! foo2 = Some (OIdentifier foo).
Proof. vm_compute. reflexivity. Qed.

Lemma C8_witness :
  Identifier_Eq hfoo foo1 (VIdentifier foo2) = Done true
  ∧ PlainPair_Eq foo1 (VPlainPair foo2) = false.
Proof.
  destruct C8_eq_identity as (HP & _ & _ & HI & _). split.
  - rewrite (HI hfoo foo1 foo2 foo foo hfoo_foo1 hfoo_foo2). reflexivity.
  - destruct (PlainPair_Eq foo1 (VPlainPair foo2)) eqn:E; [|reflexivity].
    apply HP in E. discriminate E.
Defined.

(** Two identifier objects at different addresses with the same name are
    [Eq]. *)
Lemma C8_counterexample :
  foo1 ≠ foo2
  ∧ loadIdentifier hfoo foo1 = Done foo
  ∧ loadIdentifier hfoo foo2 = Done foo
  ∧ Identifier_Eq hfoo foo1 (VIdentifier foo2) = Done true.
Proof. repeat split; try (vm_compute; reflexivity). discriminate. Qed.


Lemma C10_witness :
  builtin_list_tail 0%nat h123 [l123; num (-1)] = Done (h123, (l123, None))
  ∧ builtin_list_ref 0%nat h123 [l123; num (-1)] = Done (h123, (num 1, None)).
Proof.
  destruct (C10_negative_index 0 h123 l123 (-1 : Z) eq_refl) as (Ht & Hr & _).
  split; [exact Ht|]. exact (Hr (mkPlainPair (num 1) l23) h123_l123).
Defined.

#[local] Existing Instance newNumber.

Lemma h123_cars :
  Forall2 (λ p e, Pair_Car h123 p = Done e) [l123; l23; l3] [num 1; num 2; num 3].
Proof.
  constructor; [apply (Pair_Car_load _ _ _ h123_l123)|].
  constructor; [apply (Pair_Car_load _ _ _ h123_l23)|].
  constructor; [apply (Pair_Car_load _ _ _ h123_l3)|constructor].
Qed.

Lemma h123_path1 : Path h123 l123 [l123] l23.
Proof. econstructor; [apply (Pair_Cdr_load _ _ _ h123_l123)|constructor]. Qed.

Lemma hcyc_lcyc : load hcyc lcyc = Done (mkPlainPair (num 1) lcyc).
Proof. vm_compute. reflexivity. Qed.

Lemma hcyc_path : Path hcyc lcyc [lcyc] lcyc.
Proof. econstructor; [apply (Pair_Cdr_load _ _ _ hcyc_lcyc)|constructor]. Qed.

Lemma hfoo_load1 : loadIdentifier hfoo foo1 = Done foo.
Proof. vm_compute. reflexivity. Qed.

Lemma hfoo_load2 : loadIdentifier hfoo foo2 = Done foo.
Proof. vm_compute. reflexivity. Qed.

Lemma hloc_lloc :
  hloc !! 1%positive = Some (OLocationPair (mkLocationPair 7 9 (mkPlainPair (num 1) Nil))).
Proof. vm_compute. reflexivity. Qed.

Lemma hdot_text : Sprintf_v 3 hdot (num 3) = Done "3".
Proof. vm_compute. reflexivity. Qed.

Lemma X1_witness : Rev1.ListLength 3 l123 h123 = Done (3, true).
Proof. exact (proj1 (X1_ListLength 3 h123 l123 [l123; l23; l3] Nil h123_chain (le_n 3))). Defined.

Lemma X2_witness : builtin_list_p 3%nat h123 [l123] = Done (h123, (VBoolean true, None)).
Proof. exact (X2_list_p 3 h123 l123 [l123; l23; l3] Nil [] h123_chain (le_n 3)). Defined.

Lemma hdot_list_text : Sprintf_v 2 hdot ldot = Done "(1 2 . 3)".
Proof. vm_compute. reflexivity. Qed.

Lemma X3_witness :
  builtin_length 3%nat h123 [l123] = Done (h123, (VNumber (NewNumber 0 3), None))
  ∧ builtin_length 2%nat hdot [ldot] =
    Done (hdot, (Nil, Some (Errorf "length: not a list: (1 2 . 3)"))).
Proof.
  split.
  - exact (proj1 (X3_length 3 h123 l123 [l123; l23; l3] Nil [] h123_chain (le_n 3)) eq_refl).
  - etransitivity;
      [exact (proj2 (X3_length 2 hdot ldot [ldot; ldot2] (num 3) [] hdot_chain (le_n 2))
                eq_refl)|].
    rewrite hdot_list_text. reflexivity.
Defined.

Lemma X4_witness :
  ListPairs 3 l123 h123 = Done ([l123; l23; l3], true)
  ∧ ListValues 3 l123 h123 = Done ([num 1; num 2; num 3], true).
Proof.
  exact (X4_ListPairs_ListValues 3 h123 l123 [l123; l23; l3] [num 1; num 2; num 3] Nil
           h123_chain h123_cars (le_n 3)).
Defined.

Lemma X6_witness : Rev1.ListLength 100 lcyc hcyc = OutOfFuel.
Proof.
  refine (proj1 (proj2 (X6_circular_list record_calls 100 hcyc lcyc [lcyc] [] [] hcyc_path _))).
  discriminate.
Defined.

Lemma X8_witness :
  ∃ h' r qs,
    builtin_reverse 3%nat h123 [l123] = Done (h', (r, None))
    ∧ h123 ⊆ h' ∧ Chain h' r qs Nil
    ∧ Forall2 (λ p e, Pair_Car h' p = Done e) qs [num 3; num 2; num 1]
    ∧ Forall (λ p, ∃ l, p = VPlainPair l ∧ h123 !! l = None) qs.
Proof.
  exact (proj1 (X8_reverse 3 h123 l123 [l123; l23; l3] [num 1; num 2; num 3] Nil []
                  h123_chain h123_cars (le_n 3)) eq_refl).
Defined.

Lemma X10_witness :
  builtin_car 0%nat h123 [num 5] = Done (h123, (Nil, Some (Errorf "car: not a pair: 5"))).
Proof.
  exact (proj1 (proj2 (X10_car_cdr_not_a_pair 0 h123 (num 5) [] "5" eq_refl eq_refl))).
Defined.

Lemma X11_witness : builtin_list_tail 3%nat h123 [l123; num 1] = Done (h123, (l23, None)).
Proof.
  refine (proj1 (X11_list_tail_list_ref_at 3 h123 l123 [l123] l23 (1 : Z) h123_path1 eq_refl _)).
  simpl. lia.
Defined.

Lemma X12_witness :
  builtin_list_tail 3%nat h123 [l123; num 5] =
    Done (h123, (Nil, Some (Errorf "list-tail: index 5 out of range for list (1 2 3)"))).
Proof.
  refine (eq_trans (X12_list_tail_out_of_range 3 h123 l123 [l123; l23; l3] (5 : Z)
                      h123_chain _ (le_n 3)) _).
  - simpl. lia.
  - rewrite h123_text. reflexivity.
Defined.

Lemma X13_witness :
  builtin_list_tail 3%nat hdot [ldot; num 5] =
    Done (hdot, (Nil, Some (Errorf "list-tail: invalid list: 3"))).
Proof.
  refine (proj1 (X13_improper_list 3 hdot ldot [ldot; ldot2] (num 3) (5 : Z) "3"
                   hdot_chain eq_refl _ hdot_text) _); simpl; lia.
Defined.

Lemma X14_witness :
  builtin_list_ref 0%nat h123 [l123; VBoolean true] =
    Done (h123, (Nil, Some (Errorf "list-ref: invalid index: #t"))).
Proof.
  exact (proj2 (X14_invalid_index 0 h123 l123 (VBoolean true) [] eq_refl)).
Defined.

Lemma X15_witness :
  ∃ h', builtin_set_car 0%nat h123 [l23; num 9] = Done (h', (Nil, None))
      ∧ Chain h' l123 [l123; l23; l3] Nil.
Proof.
  destruct (X15_set_car_keeps_lists 0 h123 l23 (num 9) [] _ h123_l23) as (h' & Hs & Hk).
  exists h'. split; [exact Hs|]. exact (proj1 (Hk _ _ _ h123_chain)).
Defined.

Lemma X16_witness : PlainPair_String 50 hcyc lcyc ≠ Done "(1 1 1)".
Proof.
  refine (proj1 (X16_circular_rendering 50 hcyc lcyc [lcyc] "(1 1 1)" hcyc_path _)).
  discriminate.
Defined.

Lemma X17_witness :
  ∃ h', builtin_set_cdr 0%nat h123 [l3; l3] = Done (h', (Nil, None))
      ∧ Rev1.ListLength 50 l3 h' = OutOfFuel.
Proof.
  destruct (X17_set_cdr_makes_cycle 0 h123 l3 [] _ h123_l3) as (h' & Hs & _ & Hc).
  exists h'. split; [exact Hs|]. exact (proj1 (Hc 50%nat)).
Defined.

Lemma X18_witness :
  Cdr h123 l123 true ≫= (λ '(r, ok), Car h123 r ok) = Done (num 2, true).
Proof.
  exact (proj1 (proj2 (proj2 (X18_Car_Cdr h123 l123 _ h123_l123))) _ h123_l23).
Defined.

Lemma X19_witness : Identifier_Equal hfoo foo1 (VIdentifier foo2) = Done true.
Proof.
  refine (proj2 (proj2 (proj2 (proj2 (proj2
            (X19_Identifier_Equal 0 hfoo foo1 foo2 foo1 foo foo foo
               hfoo_load1 hfoo_load2 hfoo_load1))))) _).
  vm_compute. reflexivity.
Defined.

Lemma X21_witness :
  ∃ h', Pair_SetTo hloc lloc 12 = Done h'
      ∧ Pair_To h' lloc = Done 12 ∧ Pair_From h' lloc = Done 7.
Proof.
  destruct (proj1 (X21_locations hloc 1%positive _ 12 hloc_lloc)) as (h' & Hs & Ht & Hf & _).
  exists h'. split; [exact Hs|]. split; [exact Ht|exact Hf].
Defined.

Lemma X22_witness : PlainPair_Equal numbers_only h123 l123 l23 = Done false.
Proof.
  exact (proj1 (X22_PlainPair_Equal numbers_only h123 l123 l23 _ _ h123_l123 h123_l23) eq_refl).
Defined.

Lemma X23_witness :
  ∃ h' v,
    builtin_list 0%nat ∅ [num 1; num 2; num 3] = Done (h', (v, None))
    ∧ builtin_length 3%nat h' [v] = Done (h', (VNumber (NewNumber 0 3), None))
    ∧ builtin_list_ref 3%nat h' [v; num 1] = Done (h', (num 2, None)).
Proof.
  destruct (X23_list_reads_back 0 3 ∅ [num 1; num 2; num 3] (le_n 3))
    as (h' & v & Hl & Hlen & _ & _ & Href & _).
  exists h', v. split; [exact Hl|]. split; [exact Hlen|].
  exact (Href 1%nat (num 2) (1 : Z) eq_refl eq_refl).
Defined.

Lemma X24_witness :
  ∃ h1 r h2 r2 qs,
    builtin_reverse 3%nat h123 [l123] = Done (h1, (r, None))
    ∧ builtin_reverse 3%nat h1 [r] = Done (h2, (r2, None))
    ∧ Chain h2 r2 qs Nil
    ∧ Forall2 (λ p e, Pair_Car h2 p = Done e) qs [num 1; num 2; num 3]
    ∧ Forall (λ p, ∃ l, p = VPlainPair l ∧ h123 !! l = None ∧ h1 !! l = None) qs
    ∧ r2 ≠ l123.
Proof.
  destruct (X24_reverse_twice 3 h123 l123 [l123; l23; l3] [num 1; num 2; num 3]
              h123_chain h123_cars (le_n 3))
    as (h1 & r & h2 & r2 & qs & H1 & H2 & _ & HC & Hcars & Hnew & _ & Hne).
  exists h1, r, h2, r2, qs. split; [exact H1|]. split; [exact H2|].
  split; [exact HC|]. split; [exact Hcars|]. split; [exact Hnew|]. apply Hne. discriminate.
Defined.

Lemma hcirc_lcirc : load hcirc lcirc = Done (mkPlainPair ccyc l23).
Proof. vm_compute. reflexivity. Qed.

Lemma hcirc_cycle : Path hcirc ccyc [ccyc] ccyc.
Proof. apply (Path_step _ _ ccyc); [vm_compute; reflexivity|apply Path_nil]. Qed.

Lemma hcirc_chain : Chain hcirc lcirc [lcirc; l23; l3] Nil.
Proof.
  split; [|reflexivity].
  apply (Path_step _ _ l23); [vm_compute; reflexivity|].
  apply (Path_step _ _ l3); [vm_compute; reflexivity|].
  apply (Path_step _ _ Nil); [vm_compute; reflexivity|].
  apply Path_nil.
Qed.

(** [(c 2 3)], with [c] a circular list, is a proper list of three elements
    on which [list-tail] with the index 4 and [list-ref] with the index 3 do
    not fail: they do not return, whatever the number of turns. *)
Lemma C1_counterexample :
  Chain hcirc lcirc [lcirc; l23; l3] Nil
  ∧ (∀ (fuel : nat) r, builtin_list_tail fuel hcirc [lcirc; num 4] ≠ Done r)
  ∧ (∀ (fuel : nat) r, builtin_list_ref fuel hcirc [lcirc; num 3] ≠ Done r).
Proof.
  split; [exact hcirc_chain|].
  assert (∀ (fuel : nat) msg, Sprintf_v fuel hcirc lcirc ≠ Done msg) as Hno.
  { intros fuel msg.
    apply (Sprintf_v_circular_car fuel hcirc lcirc _ [ccyc] msg hcirc_lcirc hcirc_cycle).
    discriminate. }
  split; intros fuel r H.
  - destruct (le_lt_dec 3 fuel) as [Hf|Hf].
    + unfold num in H.
      rewrite (list_tail_beyond fuel hcirc lcirc [lcirc; l23; l3] (4 : Z) hcirc_chain) in H;
        [|simpl; lia|exact Hf].
      apply bind_Done_inv in H as (msg & Hmsg & _). exact (Hno _ _ Hmsg).
    + destruct fuel as [|[|[|fuel]]]; [vm_compute in H; discriminate..|lia].
  - destruct (le_lt_dec 3 fuel) as [Hf|Hf].
    + unfold num in H. rewrite list_ref_unfold in H.
      rewrite (advance_to_end fuel hcirc _ 0 lcirc [lcirc; l23; l3] (proj1 hcirc_chain) Hf) in H;
        [|simpl; lia].
      rewrite bind_Done in H. cbn beta iota in H. cbn [isNil] in H.
      apply bind_Done_inv in H as (msg & Hmsg & _). exact (Hno _ _ Hmsg).
    + destruct fuel as [|[|[|fuel]]]; [vm_compute in H; discriminate..|lia].
Qed.

End Samples.
